(** * SixKey: the pinyin composition engine of the six-key keyboard

    A shallow embedding of the composition core of
    [components/KeyboardLayout.tsx]: the key-group matcher
    ([matchesGroups]), the syllable row ([availablePinyinSegments]), the
    memoised segmentation ([segmentations] / [solve]), the candidate
    ranker ([candidates] / [addResult]) and the event handlers that drive
    the composition state ([handleTap], [handleCandidateSelect],
    [handlePanelDelete], ...).

    Conventions.
    - A JavaScript string is the list of its UTF-16 code units, so that
      [length] is [String.prototype.length] and [s[i]] is a lookup.
    - The module [constants] ([VALID_PINYINS], [PINYIN_TO_HANZI],
      [COMMON_PHRASES]) and the host functions [toLowerCase] and
      [localeCompare] are parameters of the development.
    - Scores are JavaScript numbers; they are modelled as exact rationals
      (the binary64 rounding of [idx * 0.1] is not modelled; every concrete
      evaluation below only uses penalties that binary64 represents
      exactly).
    - The objects [PINYIN_TO_HANZI], [COMMON_PHRASES] and [usageHistory]
      are finite maps from strings: a lookup of an absent key is
      [undefined] (properties inherited from [Object.prototype] are not
      modelled), and the lists they hold are truthy.
    - React state is an explicit record; a handler is a function from the
      state of the current render to the next state and the calls it made
      to the host ([onKeyPress], [onDelete], [setHandMode]). *)

From Stdlib Require Import ZArith QArith Qround Qminmax Qabs Lia Lqa.
From Stdlib Require DecimalString DecimalNat.
From stdpp Require Import gmap list strings sorting.
Import ListNotations.

(** ** Strings *)

Abbreviation jsstring := (list N).

(** A string literal of Basic Latin characters. *)
Definition js (s : string) : jsstring :=
  (λ a, Ascii.N_of_ascii a) <$> String.list_ascii_of_string s.

(** [String.prototype.toLowerCase] restricted to Basic Latin: used only to
    instantiate the parameter [toLowerCase] on concrete ASCII inputs. *)
Definition asciiLower (s : jsstring) : jsstring :=
  (λ c, if (65 <=? c)%N && (c <=? 90)%N then (c + 32)%N else c) <$> s.

(** Comparison of strings by code units: a consistent comparator used to
    instantiate the parameter [localeCompare] on concrete inputs. *)
Fixpoint codeUnitCompare (a b : jsstring) : Z :=
  match a, b with
  | [], [] => 0
  | [], _ :: _ => -1
  | _ :: _, [] => 1
  | x :: a', y :: b' =>
      if (x <? y)%N then -1 else if (y <? x)%N then 1 else codeUnitCompare a' b'
  end.

(** [String(n)] for a non-negative integer [n] (decimal digits). *)
Definition decimal (n : nat) : jsstring :=
  js (DecimalString.NilEmpty.string_of_uint (Nat.to_uint n)).

(** ** types.ts *)

Inductive HandMode := full | left | right.
Inductive KeyType := char_group | action_key | placeholder.
Inductive KeyWidth := w_auto | w_sm | w_md | w_lg | w_grow.

Record KeyGroup := {
  label : jsstring;
  subLabel : option jsstring;
  chars : option (list jsstring);
  action : option jsstring;
  width : option KeyWidth;
  type : KeyType
}.

(** ** Interfaces of KeyboardLayout.tsx *)

Record Segment := { str : jsstring; len : nat }.

Inductive CandidateType := Phrase | Char | Raw.
Inductive CandidateMode := WordMode | CharMode.

Record Candidate := {
  display : jsstring;
  value : jsstring;
  score : Q;
  consumedLen : nat;
  ctype : CandidateType
}.

Record HistoryItem := { text : jsstring; keys : list KeyGroup }.

(** The React state of [KeyboardLayout] that the composition uses. The
    magnifier state ([activeGroup], [slideIndex]) and the touch ref belong
    to gesture capture and are left out. *)
Record State := {
  pinyinKeys : list KeyGroup;
  stagedText : jsstring;
  selectionHistory : list HistoryItem;
  isExpanded : bool;
  page : Z;
  candidateMode : CandidateMode;
  focusedPinyinCandidate : option Segment;
  usageHistory : gmap jsstring nat
}.

(** Calls to the props of the component. *)
Inductive Output :=
  | KeyPress (t : jsstring)
  | Delete
  | SetHandMode (m : HandMode).

(** ** Arrays *)

(** [arr.forEach((x, idx) => body)] where the body updates a state [St]. *)
Fixpoint forEach_from {A St : Type} (body : A → nat → St → St)
    (idx : nat) (arr : list A) (s : St) : St :=
  match arr with
  | [] => s
  | x :: arr' => forEach_from body (S idx) arr' (body x idx s)
  end.

Definition forEach {A St : Type} (body : A → nat → St → St) (arr : list A) (s : St) : St :=
  forEach_from body 0 arr s.

(** [arr.slice(from, to)] for [0 <= from <= to]. *)
Definition slice {A : Type} (arr : list A) (from to : nat) : list A :=
  take (to - from) (drop from arr).

(** [Array.prototype.sort(cmp)]: the sort is stable, and for a consistent
    comparator its result is the stable sorted arrangement, which insertion
    from the right computes. [leb a b] stands for [cmp(a, b) <= 0]. *)
Fixpoint insertBy {A : Type} (leb : A → A → bool) (x : A) (l : list A) : list A :=
  match l with
  | [] => [x]
  | y :: l' => if leb x y then x :: y :: l' else y :: insertBy leb x l'
  end.

Definition sortBy {A : Type} (leb : A → A → bool) (l : list A) : list A :=
  foldr (insertBy leb) [] l.

(** The memo table of [solve], and the pair [processed], [resultList] of
    [candidates]. *)
Abbreviation Memo := (gmap nat (list (list Segment))).
Abbreviation RankState := (gset jsstring * list Candidate)%type.

(** ** The engine, over the constants module and the host string functions *)

Section Engine.

Variable toLowerCase : jsstring → jsstring.
Variable localeCompare : jsstring → jsstring → Z.
(** [Array.from(VALID_PINYINS)]: the syllables in iteration order. *)
Variable VALID_PINYINS : list jsstring.
Variable PINYIN_TO_HANZI : gmap jsstring (list jsstring).
Variable COMMON_PHRASES : gmap jsstring (list jsstring).

(** *** matchesGroups *)

(** The body of the loop at position [i]: [false] is the early return.
    [groups !! i] is defined whenever the length test has passed. *)
Definition matchesAt (target : jsstring) (groups : list KeyGroup) (i : nat) : bool :=
  match target !! i, groups !! i with
  | Some c, Some g =>
      match chars g with
      | Some allowed => bool_decide (toLowerCase [c] ∈ allowed)
      | None => false
      end
  | _, _ => false
  end.

Definition matchesGroups (target : jsstring) (groups : list KeyGroup) : bool :=
  if negb (length target =? length groups) then false
  else forallb (matchesAt target groups) (seq 0 (length target)).

(** *** availablePinyinSegments *)

Definition chunkMatches (len : nat) (chunkSlice : list KeyGroup) : list jsstring :=
  List.filter (λ p, (length p =? len) && matchesGroups p chunkSlice) VALID_PINYINS.

Definition segmentCompare (a b : Segment) : Z :=
  let d := (Z.of_nat (len a) - Z.of_nat (len b))%Z in
  if (d =? 0)%Z then localeCompare (str a) (str b) else d.

Definition segmentLeb (a b : Segment) : bool := (segmentCompare a b <=? 0)%Z.

Definition availablePinyinSegments (pinyinKeys : list KeyGroup) : list Segment :=
  if length pinyinKeys =? 0 then []
  else
    let maxLen := 6 `min` length pinyinKeys in
    let results :=
      foldl (λ results len,
               let chunkSlice := slice pinyinKeys 0 len in
               let matches := chunkMatches len chunkSlice in
               results ++ ((λ m, {| str := m; len := len |}) <$> matches))
            [] (seq 1 maxLen) in
    sortBy segmentLeb results.

(** *** segmentations *)

(** The innermost loops of [solve], over the recursive call [solve_]:
    [for (const suffix of suffixes) results.push([{str: m, len}, ...suffix])]
    for one match [m], and the loop over the matches of one chunk length. *)
Definition solveMatch (solve_ : nat → Memo → list (list Segment) * Memo)
    (index len : nat) (acc : list (list Segment) * Memo) (m : jsstring)
    : list (list Segment) * Memo :=
  let '(results, memo) := acc in
  let '(suffixes, memo') := solve_ (index + len) memo in
  (results ++ ((λ suffix, {| str := m; len := len |} :: suffix) <$> suffixes), memo').

Definition solveLen (solve_ : nat → Memo → list (list Segment) * Memo)
    (pinyinKeys : list KeyGroup) (index : nat)
    (acc : list (list Segment) * Memo) (len : nat) : list (list Segment) * Memo :=
  let chunkSlice := slice pinyinKeys index (index + len) in
  let matches := chunkMatches len chunkSlice in
  foldl (solveMatch solve_ index len) acc matches.

(** [solve] threads the memo table; [fuel] bounds the recursion depth
    ([index] grows at every call and never exceeds the buffer length). *)
Fixpoint solve (pinyinKeys : list KeyGroup) (fuel : nat) (index : nat) (memo : Memo)
    : list (list Segment) * Memo :=
  match fuel with
  | 0 => ([], memo)
  | S fuel' =>
      if index =? length pinyinKeys then ([[]], memo)
      else
        match memo !! index with
        | Some cached => (cached, memo)
        | None =>
            let remainingLen := length pinyinKeys - index in
            let maxChunkLen := 6 `min` remainingLen in
            let '(results, memo1) :=
              foldl (solveLen (solve pinyinKeys fuel') pinyinKeys index)
                    ([], memo) (seq 1 maxChunkLen) in
            (results, <[index := results]> memo1)
        end
  end.

Definition segmentations (pinyinKeys : list KeyGroup) : list (list Segment) :=
  if length pinyinKeys =? 0 then []
  else (solve pinyinKeys (S (length pinyinKeys)) 0 ∅).1.

(** *** candidates *)

(** The key [`${value}-${consumedLen}`] of the set [processed]. *)
Definition resultKey (value : jsstring) (consumedLen : nat) : jsstring :=
  value ++ js "-" ++ decimal consumedLen.

Definition addResult (usage : gmap jsstring nat) (mode : CandidateMode)
    (display value : jsstring) (baseScore : Q) (consumedLen : nat)
    (type : CandidateType) (indexPenalty : Q) (st : RankState) : RankState :=
  let '(processed, resultList) := st in
  let key := resultKey value consumedLen in
  if bool_decide (key ∈ processed) then st
  else
    let score := baseScore in
    let score :=
      match mode, type with
      | CharMode, Char => (score + 200)%Q
      | WordMode, Phrase => (score + 50)%Q
      | _, _ => score
      end in
    let score := (score + inject_Z (Z.of_nat (length value)) * 5)%Q in
    let freq := default 0%nat (usage !! value) in
    let score := (score + inject_Z (Z.of_nat freq) * 10)%Q in
    let score := (score - indexPenalty)%Q in
    (processed ∪ {[ key ]},
     resultList ++ [ {| display := display; value := value; score := score;
                        consumedLen := consumedLen; ctype := type |} ]).

(** The comparator [(a, b) => b.score - a.score], as [cmp(a, b) <= 0]. *)
Definition candidateLeb (a b : Candidate) : bool :=
  Qle_bool (score b - score a) 0.

(** [k.chars?.[0] || '?'] *)
Definition rawLetter (k : KeyGroup) : jsstring :=
  match chars k with
  | Some (c :: _) => if length c =? 0 then js "?" else c
  | _ => js "?"
  end.

(** One round of the phrase loop of LOGIC B, at index [i] of [segPath]. *)
Definition phraseStep (usage : gmap jsstring nat) (mode : CandidateMode)
    (segPath : list Segment) (acc : jsstring * nat * RankState) (i : nat)
    : jsstring * nat * RankState :=
  let '(accumulatedPinyin, accumulatedLen, st) := acc in
  match segPath !! i with
  | Some s =>
      let accumulatedPinyin :=
        accumulatedPinyin ++ (if 0 <? i then js "'" else []) ++ str s in
      let accumulatedLen := accumulatedLen + len s in
      let st :=
        match COMMON_PHRASES !! accumulatedPinyin with
        | Some phrases =>
            forEach (λ phrase idx,
                       addResult usage mode phrase phrase 150 accumulatedLen Phrase
                                 (inject_Z (Z.of_nat idx) * 0.1)%Q)
                    phrases st
        | None => st
        end in
      (accumulatedPinyin, accumulatedLen, st)
  | None => acc
  end.

(** The body of [segmentations.forEach(segPath => ...)]. *)
Definition addPath (usage : gmap jsstring nat) (mode : CandidateMode)
    (st : RankState) (segPath : list Segment) : RankState :=
  if length segPath =? 0 then st
  else
    let '(_, _, st) :=
      foldl (phraseStep usage mode segPath) ([], 0, st)
            (seq 0 (length segPath `min` 4)) in
    match segPath !! 0 with
    | Some firstSeg =>
        let pinyinStr := str firstSeg in
        match PINYIN_TO_HANZI !! pinyinStr with
        | Some hanzis =>
            forEach (λ h idx,
                       addResult usage mode h h 50 (len firstSeg) Char
                                 (inject_Z (Z.of_nat idx) * 0.5)%Q)
                    hanzis st
        | None => st
        end
    | None => st
    end.

(** The list [resultList] before the final sort. *)
Definition resultList (pinyinKeys : list KeyGroup) (segs : list (list Segment))
    (usage : gmap jsstring nat) (mode : CandidateMode)
    (focused : option Segment) : list Candidate :=
  let st0 : RankState := (∅, []) in
  match focused with
  | Some f =>
      (* LOGIC A; the loop over [Object.entries(COMMON_PHRASES)] has an
         empty body *)
      match PINYIN_TO_HANZI !! str f with
      | Some hanzis =>
          (forEach (λ h idx,
                      addResult usage mode h h 100 (len f) Char
                                (inject_Z (Z.of_nat idx) * 0.1)%Q)
                   hanzis st0).2
      | None => st0.2
      end
  | None =>
      (* LOGIC B *)
      if 0 <? length segs then (foldl (addPath usage mode) st0 segs).2
      else if length st0.2 =? 0 then
        let raw := concat (rawLetter <$> pinyinKeys) in
        (addResult usage mode raw raw 0 (length pinyinKeys) Raw 0 st0).2
      else st0.2
  end.

Definition candidates (pinyinKeys : list KeyGroup) (segs : list (list Segment))
    (usage : gmap jsstring nat) (mode : CandidateMode)
    (focused : option Segment) : list Candidate :=
  if length pinyinKeys =? 0 then []
  else sortBy candidateLeb (resultList pinyinKeys segs usage mode focused).

(** The candidates of a render: [segmentations] is the memo of the same
    render. *)
Definition candidatesOf (r : State) : list Candidate :=
  candidates (pinyinKeys r) (segmentations (pinyinKeys r))
             (usageHistory r) (candidateMode r) (focusedPinyinCandidate r).

End Engine.

(** ** Event handlers *)

(** A handler runs against the state [r] of the render that created it (its
    closure) and queues updates; [Action] applies the queued updates, in
    order, to the pending state and collects the host calls. An updater
    function [prev => ...] receives the pending state, a plain value
    ignores it. *)
Definition Action : Type := State → State * list Output.

Definition skip : Action := λ s, (s, []).

Definition andThen (a b : Action) : Action :=
  λ s, let '(s1, o1) := a s in let '(s2, o2) := b s1 in (s2, o1 ++ o2).

Declare Scope action_scope.
Delimit Scope action_scope with action.
Bind Scope action_scope with Action.
Notation "a ;; b" := (andThen a b)
  (at level 100, b at level 200, right associativity) : action_scope.

Definition onKeyPress (t : jsstring) : Action := λ s, (s, [KeyPress t]).
Definition onDelete : Action := λ s, (s, [Delete]).
Definition setHandMode (m : HandMode) : Action := λ s, (s, [SetHandMode m]).

Definition setStagedText (f : jsstring → jsstring) : Action :=
  λ s, ({| pinyinKeys := pinyinKeys s; stagedText := f (stagedText s);
           selectionHistory := selectionHistory s; isExpanded := isExpanded s;
           page := page s; candidateMode := candidateMode s;
           focusedPinyinCandidate := focusedPinyinCandidate s;
           usageHistory := usageHistory s |}, []).

Definition setSelectionHistory (f : list HistoryItem → list HistoryItem) : Action :=
  λ s, ({| pinyinKeys := pinyinKeys s; stagedText := stagedText s;
           selectionHistory := f (selectionHistory s); isExpanded := isExpanded s;
           page := page s; candidateMode := candidateMode s;
           focusedPinyinCandidate := focusedPinyinCandidate s;
           usageHistory := usageHistory s |}, []).

Definition setIsExpanded (b : bool) : Action :=
  λ s, ({| pinyinKeys := pinyinKeys s; stagedText := stagedText s;
           selectionHistory := selectionHistory s; isExpanded := b;
           page := page s; candidateMode := candidateMode s;
           focusedPinyinCandidate := focusedPinyinCandidate s;
           usageHistory := usageHistory s |}, []).

Definition setPage (f : Z → Z) : Action :=
  λ s, ({| pinyinKeys := pinyinKeys s; stagedText := stagedText s;
           selectionHistory := selectionHistory s; isExpanded := isExpanded s;
           page := f (page s); candidateMode := candidateMode s;
           focusedPinyinCandidate := focusedPinyinCandidate s;
           usageHistory := usageHistory s |}, []).

Definition setCandidateMode (f : CandidateMode → CandidateMode) : Action :=
  λ s, ({| pinyinKeys := pinyinKeys s; stagedText := stagedText s;
           selectionHistory := selectionHistory s; isExpanded := isExpanded s;
           page := page s; candidateMode := f (candidateMode s);
           focusedPinyinCandidate := focusedPinyinCandidate s;
           usageHistory := usageHistory s |}, []).

Definition setFocusedPinyinCandidate (v : option Segment) : Action :=
  λ s, ({| pinyinKeys := pinyinKeys s; stagedText := stagedText s;
           selectionHistory := selectionHistory s; isExpanded := isExpanded s;
           page := page s; candidateMode := candidateMode s;
           focusedPinyinCandidate := v;
           usageHistory := usageHistory s |}, []).

Definition setUsageHistory (f : gmap jsstring nat → gmap jsstring nat) : Action :=
  λ s, ({| pinyinKeys := pinyinKeys s; stagedText := stagedText s;
           selectionHistory := selectionHistory s; isExpanded := isExpanded s;
           page := page s; candidateMode := candidateMode s;
           focusedPinyinCandidate := focusedPinyinCandidate s;
           usageHistory := f (usageHistory s) |}, []).

(** [setPinyinKeys] always installs a fresh array, so the effect on
    [[pinyinKeys]] runs once the batch is applied: [setPage(0)] and
    [setFocusedPinyinCandidate(null)]. No handler that replaces the buffer
    queues another page or focus in the same batch, so the effect is
    applied together with the update. *)
Definition setPinyinKeys (f : list KeyGroup → list KeyGroup) : Action :=
  λ s, ({| pinyinKeys := f (pinyinKeys s); stagedText := stagedText s;
           selectionHistory := selectionHistory s; isExpanded := isExpanded s;
           page := 0; candidateMode := candidateMode s;
           focusedPinyinCandidate := None;
           usageHistory := usageHistory s |}, []).

(** [s.slice(0, -n)] for [n >= 0]: [-0] is [0], so [n = 0] gives the empty
    prefix. *)
Definition sliceNeg {A : Type} (s : list A) (n : nat) : list A :=
  if n =? 0 then [] else take (length s - n) s.

Definition clearComposition : Action :=
  (setPinyinKeys (λ _, []) ;;
   setStagedText (λ _, []) ;;
   setSelectionHistory (λ _, []) ;;
   setIsExpanded false ;;
   setFocusedPinyinCandidate None ;;
   setPage (λ _, 0%Z))%action.

Definition handleCandidateSelect (candidate : Candidate) (r : State) : Action :=
  (setUsageHistory (λ prev,
     <[value candidate := S (default 0%nat (prev !! value candidate))]> prev) ;;
   let newStagedText := stagedText r ++ value candidate in
   let consumedKeys := slice (pinyinKeys r) 0 (consumedLen candidate) in
   let remainingKeys := drop (consumedLen candidate) (pinyinKeys r) in
   if length remainingKeys =? 0 then
     onKeyPress newStagedText ;; clearComposition
   else
     setSelectionHistory (λ prev,
       prev ++ [ {| text := value candidate; keys := consumedKeys |} ]) ;;
     setStagedText (λ _, newStagedText) ;;
     setPinyinKeys (λ _, remainingKeys) ;;
     setPage (λ _, 0%Z) ;;
     setIsExpanded true ;;
     setFocusedPinyinCandidate None)%action.

Definition handlePanelDelete (r : State) : Action :=
  match focusedPinyinCandidate r with
  | Some _ => setFocusedPinyinCandidate None
  | None =>
      if 0 <? length (selectionHistory r) then
        match last (selectionHistory r) with
        | Some last_ =>
            let newHistory := sliceNeg (selectionHistory r) 1 in
            (setSelectionHistory (λ _, newHistory) ;;
             setStagedText (λ prev, sliceNeg prev (length (text last_))) ;;
             setPinyinKeys (λ prev, keys last_ ++ prev) ;;
             setPage (λ _, 0%Z))%action
        | None => skip
        end
      else if 0 <? length (pinyinKeys r) then
        setPinyinKeys (λ prev, sliceNeg prev 1)
      else if 0 <? length (stagedText r) then
        setStagedText (λ prev, sliceNeg prev 1)
      else onDelete
  end.

Section Handlers.

Variable toLowerCase : jsstring → jsstring.
Variable VALID_PINYINS : list jsstring.
Variable PINYIN_TO_HANZI : gmap jsstring (list jsstring).
Variable COMMON_PHRASES : gmap jsstring (list jsstring).

Let candidates_ (r : State) : list Candidate :=
  candidatesOf toLowerCase VALID_PINYINS PINYIN_TO_HANZI COMMON_PHRASES r.

(** [k.chars?.[0]] inside [join('')]: [undefined] joins as the empty
    string. *)
Definition firstChar (k : KeyGroup) : jsstring :=
  match chars k with
  | Some (c :: _) => c
  | _ => []
  end.

Definition handleTap (data : KeyGroup) (r : State) : Action :=
  match type data with
  | action_key =>
      if bool_decide (action data = Some (js "backspace")) then handlePanelDelete r
      else if bool_decide (action data = Some (js "space")) then
        if (0 <? length (pinyinKeys r)) && (0 <? length (candidates_ r)) then
          match candidates_ r !! 0 with
          | Some best => handleCandidateSelect best r
          | None => skip
          end
        else if 0 <? length (stagedText r) then
          (onKeyPress (stagedText r ++ js " ") ;; setStagedText (λ _, []))%action
        else onKeyPress (js " ")
      else if bool_decide (action data = Some (js "enter")) then
        if (0 <? length (pinyinKeys r)) || (0 <? length (stagedText r)) then
          let raw := toLowerCase (concat (firstChar <$> pinyinKeys r)) in
          (onKeyPress (stagedText r ++ raw) ;; clearComposition)%action
        else onKeyPress [10%N]
      else if bool_decide (action data = Some (js "onehand")) then setHandMode right
      else skip
  | _ =>
      match chars data with
      | Some cs =>
          if length cs =? 1 then
            match cs !! 0 with
            | Some c => onKeyPress c
            | None => skip
            end
          else setPinyinKeys (λ prev, prev ++ [data])
      | None => skip
      end
  end.

(** The magnifier state set at the end of the function is not modelled. *)
Definition handleLongPressStart (data : KeyGroup) (r : State) : Action :=
  if bool_decide (action data = Some (js "backspace")) then clearComposition
  else skip.

Definition handleSlideCommit (char_ : jsstring) (r : State) : Action :=
  ((if (0 <? length (pinyinKeys r)) || (0 <? length (stagedText r)) then
      (if 0 <? length (stagedText r) then onKeyPress (stagedText r) else skip) ;;
      clearComposition
    else skip) ;;
   onKeyPress (toLowerCase char_))%action.

(** The button of a syllable [seg] in the pinyin row. *)
Definition handleSegmentClick (seg : Segment) (r : State) : Action :=
  let isActive :=
    match focusedPinyinCandidate r with
    | Some f => bool_decide (str f = str seg) && (len f =? len seg)
    | None => false
    end in
  ((if isActive then setFocusedPinyinCandidate None
    else setFocusedPinyinCandidate (Some seg)) ;;
   setPage (λ _, 0%Z))%action.

Definition toggleCandidateMode : Action :=
  setCandidateMode (λ prev, match prev with WordMode => CharMode | CharMode => WordMode end).

(** What the user can do to the component. [Paging] stands for the page
    buttons and swipes and [Expand] for the panel buttons, which only set
    [page] and [isExpanded]. *)
Inductive Event :=
  | Tap (data : KeyGroup)
  | LongPressStart (data : KeyGroup)
  | SlideCommit (char_ : jsstring)
  | CandidateClick (candidate : Candidate)
  | SegmentClick (seg : Segment)
  | PanelDeleteClick
  | ModeClick
  | CloseClick
  | Paging (p : Z)
  | Expand (b : bool).

Definition handler (e : Event) (r : State) : Action :=
  match e with
  | Tap data => handleTap data r
  | LongPressStart data => handleLongPressStart data r
  | SlideCommit c => handleSlideCommit c r
  | CandidateClick c => handleCandidateSelect c r
  | SegmentClick seg => handleSegmentClick seg r
  | PanelDeleteClick => handlePanelDelete r
  | ModeClick => toggleCandidateMode
  | CloseClick => clearComposition
  | Paging p => setPage (λ _, p)
  | Expand b => setIsExpanded b
  end.

(** One event, handled to completion: the handler of render [r] is applied
    to the state of that render. *)
Definition dispatch (e : Event) (r : State) : State * list Output := handler e r r.

Definition step (e : Event) (r : State) : State := (dispatch e r).1.

Inductive reachable (init : State) : State → Prop :=
  | reachable_init : reachable init init
  | reachable_step e r : reachable init r → reachable init (step e r).

End Handlers.

(** Runs of the undo law: the selections [cs] one after the other, [n]
    presses of delete, and the condition that no selection of [cs] empties
    the buffer (so that none commits). *)
Section Runs.

Variable toLowerCase : jsstring → jsstring.
Variable VALID_PINYINS : list jsstring.
Variable PINYIN_TO_HANZI : gmap jsstring (list jsstring).
Variable COMMON_PHRASES : gmap jsstring (list jsstring).

Definition selectAll (cs : list Candidate) (r : State) : State :=
  foldl (λ r c, step toLowerCase VALID_PINYINS PINYIN_TO_HANZI COMMON_PHRASES
                     (CandidateClick c) r) r cs.

Definition deleteTimes (n : nat) (r : State) : State :=
  Nat.iter n (step toLowerCase VALID_PINYINS PINYIN_TO_HANZI COMMON_PHRASES
                   PanelDeleteClick) r.

Fixpoint no_commit (cs : list Candidate) (r : State) : Prop :=
  match cs with
  | [] => True
  | c :: cs' =>
      drop (consumedLen c) (pinyinKeys r) ≠ [] ∧
      no_commit cs' (step toLowerCase VALID_PINYINS PINYIN_TO_HANZI COMMON_PHRASES
                          (CandidateClick c) r)
  end.

(** The candidates picked are candidates offered: each one is in the list
    that the ranker gives for the state in which it is picked. *)
Fixpoint offered (cs : list Candidate) (r : State) : Prop :=
  match cs with
  | [] => True
  | c :: cs' =>
      c ∈ candidatesOf toLowerCase VALID_PINYINS PINYIN_TO_HANZI COMMON_PHRASES r ∧
      offered cs' (step toLowerCase VALID_PINYINS PINYIN_TO_HANZI COMMON_PHRASES
                        (CandidateClick c) r)
  end.

(** A sequence of events, each handled to completion, with all the host
    calls in order. *)
Fixpoint dispatchAll (es : list Event) (r : State) : State * list Output :=
  match es with
  | [] => (r, [])
  | e :: es' =>
      let '(r1, o1) :=
        dispatch toLowerCase VALID_PINYINS PINYIN_TO_HANZI COMMON_PHRASES e r in
      let '(r2, o2) := dispatchAll es' r1 in
      (r2, o1 ++ o2)
  end.

End Runs.

Definition initialState : State :=
  {| pinyinKeys := []; stagedText := []; selectionHistory := [];
     isExpanded := false; page := 0; candidateMode := WordMode;
     focusedPinyinCandidate := None; usageHistory := ∅ |}.

(** ** Presentation: the pinyin bar, the candidate grid, the magnifier

    Pixel coordinates are JavaScript numbers, modelled as exact rationals
    like the scores. *)

(** [activeSegmentsDisplay], over the memo [segs] of [segmentations]. *)
Definition activeSegmentsDisplay (pinyinKeys : list KeyGroup)
    (segs : list (list Segment)) : list Segment :=
  let segs0 := if 0 <? length segs then default [] (segs !! 0) else [] in
  if (length segs0 =? 0) && (0 <? length pinyinKeys) then
    [ {| str := concat (firstChar <$> pinyinKeys); len := length pinyinKeys |} ]
  else segs0.

(** *** The candidate grid *)

Definition GRID_COLS : Z := 4.
Definition GRID_ROWS : Z := 4.
Definition ITEMS_PER_PAGE : Z := GRID_COLS * GRID_ROWS.

(** [Math.ceil(candidates.length / ITEMS_PER_PAGE)] *)
Definition totalPages (candidates : list Candidate) : Z :=
  Qceiling (inject_Z (Z.of_nat (length candidates)) / inject_Z ITEMS_PER_PAGE).

(** [arr.slice(start, end)] for arbitrary integers: a negative index counts
    from the end, and both are clamped to the array. *)
Definition relativeIndex (len i : Z) : Z :=
  if (i <? 0)%Z then Z.max (len + i) 0 else Z.min i len.

Definition jsSlice {A : Type} (arr : list A) (start end_ : Z) : list A :=
  let len := Z.of_nat (length arr) in
  let k := relativeIndex len start in
  let final := relativeIndex len end_ in
  take (Z.to_nat (final - k)) (drop (Z.to_nat k) arr).

Definition currentCandidates (candidates : list Candidate) (page : Z) : list Candidate :=
  jsSlice candidates (page * ITEMS_PER_PAGE) ((page + 1) * ITEMS_PER_PAGE).

(** The updaters of the page buttons and of the swipe. *)
Definition pageUp (p : Z) : Z := Z.max 0 (p - 1).
Definition pageDown (totalPages : Z) (p : Z) : Z := Z.min (totalPages - 1) (p + 1).

(** [handleGridTouchEnd], with the value of the ref [touchStartY] and the
    [clientY] of the changed touch. *)
Definition handleGridTouchEnd (touchStartY : option Q) (clientY : Q)
    (totalPages : Z) : Action :=
  match touchStartY with
  | None => skip
  | Some startY =>
      let diffY := (clientY - startY)%Q in
      if Qlt_le_dec 50 (Qabs diffY) then
        if Qlt_le_dec diffY 0 then setPage (pageDown totalPages)
        else setPage pageUp
      else skip
  end.

(** *** KeyButton: long press and slide *)

(** [handleTouchStart]: the keys on which the long-press timer is armed. *)
Definition longPressArmed (data : KeyGroup) : bool :=
  let isBackspace := bool_decide (action data = Some (js "backspace")) in
  let isCharGroup :=
    match chars data with
    | Some cs => 1 <? length cs
    | None => false
    end in
  isCharGroup || isBackspace.

(** [Math.floor(numChars / 2)] *)
Definition middleIndex (numChars : nat) : Z :=
  Qfloor (inject_Z (Z.of_nat numChars) / 2).

(** The index of [handleTouchMove] and [handleTouchEnd] at the horizontal
    offset [diffX] from the start of the touch. *)
Definition slideIndexAt (numChars : nat) (diffX : Q) : Z :=
  let indexShift := Qfloor (diffX / 35) in
  let newIndex := (middleIndex numChars + indexShift)%Z in
  Z.max 0 (Z.min (Z.of_nat numChars - 1) newIndex).

(** [handleLongPressStart] of the layout: the index highlighted when the
    magnifier opens. *)
Definition initialSlideIndex (data : KeyGroup) : Z :=
  middleIndex (length (default [] (chars data))).

(** [handleTouchEnd]: the call it makes on the layout, as an event. After a
    long press on a key with letters it is [onSlideCommit(data.chars[i])]
    ([None] stands for an index outside the array, where the argument is
    [undefined]); after a long press on another key nothing is called (the
    action ran at the start); otherwise it is [onTap(data)]. *)
Definition handleTouchEnd (data : KeyGroup) (isLongPressActive : bool)
    (diffX : Q) : option Event :=
  if isLongPressActive then
    match chars data with
    | Some cs =>
        match cs !! Z.to_nat (slideIndexAt (length cs) diffX) with
        | Some c => Some (SlideCommit c)
        | None => None
        end
    | None => None
    end
  else Some (Tap data).

(** *** ExpansionPopup *)

(** The fields of the [DOMRect] that the popup reads. *)
Record Rect := { rect_left : Q; rect_top : Q; rect_width : Q }.

(** The position [(top, left)] of the popup in a window of width
    [innerWidth]; [None] is the [return null]. *)
Definition ExpansionPopup (innerWidth : Q) (chars : list jsstring)
    (triggerRect : option Rect) : option (Q * Q) :=
  match triggerRect with
  | None => None
  | Some rect =>
      if length chars =? 0 then None
      else
        let popupWidth := (inject_Z (Z.of_nat (length chars)) * 40 + 20)%Q in
        let left := (rect_left rect + rect_width rect / 2 - popupWidth / 2)%Q in
        let top := (rect_top rect - 80)%Q in
        let safeLeft := Qmax 10 (Qmin (innerWidth - popupWidth - 10) left) in
        Some (top, safeLeft)
  end.

(** ** App.tsx: the text of the host *)

Record AppState := { input : jsstring; handMode : HandMode }.

Definition handleKeyPress (char_ : jsstring) (a : AppState) : AppState :=
  {| input := input a ++ char_; handMode := handMode a |}.

Definition handleDelete (a : AppState) : AppState :=
  {| input := sliceNeg (input a) 1; handMode := handMode a |}.

(** The props that [App] hands to the layout, applied to a list of calls. *)
Definition hostCall (a : AppState) (o : Output) : AppState :=
  match o with
  | KeyPress t => handleKeyPress t a
  | Delete => handleDelete a
  | SetHandMode m => {| input := input a; handMode := m |}
  end.

Definition hostCalls (a : AppState) (os : list Output) : AppState :=
  foldl hostCall a os.

(** ** The properties as the specification words them *)

Section Specification.

Variable toLowerCase : jsstring → jsstring.
Variable localeCompare : jsstring → jsstring → Z.
Variable VALID_PINYINS : list jsstring.
Variable PINYIN_TO_HANZI : gmap jsstring (list jsstring).
Variable COMMON_PHRASES : gmap jsstring (list jsstring).

(** Key-Group Matcher, with both sides case-folded. *)
Definition matches_case_folded (target : jsstring) (groups : list KeyGroup) : Prop :=
  length target = length groups ∧
  ∀ i c g, target !! i = Some c → groups !! i = Some g →
    ∃ allowed, chars g = Some allowed ∧
               toLowerCase [c] ∈ (toLowerCase <$> allowed).

(** Key-Group Matcher, with the letters of the group taken as listed. *)
Definition matches_as_listed (target : jsstring) (groups : list KeyGroup) : Prop :=
  length target = length groups ∧
  ∀ i c g, target !! i = Some c → groups !! i = Some g →
    ∃ allowed, chars g = Some allowed ∧ toLowerCase [c] ∈ allowed.

(** Every segment is a dictionary syllable of at most six letters that
    matches the slice of the buffer it consumes, the next segment starting
    where it ends. *)
Fixpoint consumes (buffer : list KeyGroup) (d : list Segment) : Prop :=
  match d with
  | [] => True
  | s :: d' =>
      str s ∈ VALID_PINYINS ∧ length (str s) ≤ 6 ∧
      matchesGroups toLowerCase (str s) (take (len s) buffer) = true ∧
      consumes (drop (len s) buffer) d'
  end.

Definition full_decomposition (buffer : list KeyGroup) (d : list Segment) : Prop :=
  sum_list (len <$> d) = length buffer ∧ consumes buffer d.

(** A decomposition, by recursion along the buffer: the first segment is a
    non-empty dictionary syllable of at most six letters, as long as the
    number of keys it consumes, matching the keys it consumes; the rest
    decomposes the rest of the buffer. *)
Fixpoint decomposes (buffer : list KeyGroup) (d : list Segment) : Prop :=
  match d with
  | [] => buffer = []
  | s :: d' =>
      1 ≤ len s ≤ 6 `min` length buffer ∧ length (str s) = len s ∧
      str s ∈ VALID_PINYINS ∧
      matchesGroups toLowerCase (str s) (take (len s) buffer) = true ∧
      decomposes (drop (len s) buffer) d'
  end.

(** What a consistent memo table holds at an index of [pinyinKeys]. *)
Definition memo_ok (pinyinKeys : list KeyGroup) (memo : Memo) : Prop :=
  ∀ i r, memo !! i = Some r → ∀ d, d ∈ r ↔ decomposes (drop i pinyinKeys) d.

(** What a call [solve_(j)] owes to its caller: a consistent memo table
    stays consistent, and the result holds the decompositions from [j]. *)
Definition solves (pinyinKeys : list KeyGroup)
    (solve_ : nat → Memo → list (list Segment) * Memo) (j : nat) : Prop :=
  ∀ memo, memo_ok pinyinKeys memo →
    memo_ok pinyinKeys (solve_ j memo).2 ∧
    ∀ d, d ∈ (solve_ j memo).1 ↔ decomposes (drop j pinyinKeys) d.

(** *** The calls of [addResult]

    A [Request] is the argument list of one call of [addResult];
    [requests] lists the calls that [candidates] makes past its guard, in
    order. *)
Record Request := {
  req_display : jsstring;
  req_value : jsstring;
  req_baseScore : Q;
  req_consumedLen : nat;
  req_type : CandidateType;
  req_indexPenalty : Q
}.

Definition perform (usage : gmap jsstring nat) (mode : CandidateMode)
    (st : RankState) (q : Request) : RankState :=
  addResult usage mode (req_display q) (req_value q) (req_baseScore q)
            (req_consumedLen q) (req_type q) (req_indexPenalty q) st.

(** The candidate that a call pushes when its key is new. *)
Definition scored (usage : gmap jsstring nat) (mode : CandidateMode)
    (q : Request) : Candidate :=
  let score := req_baseScore q in
  let score :=
    match mode, req_type q with
    | CharMode, Char => (score + 200)%Q
    | WordMode, Phrase => (score + 50)%Q
    | _, _ => score
    end in
  let score := (score + inject_Z (Z.of_nat (length (req_value q))) * 5)%Q in
  let freq := default 0%nat (usage !! req_value q) in
  let score := (score + inject_Z (Z.of_nat freq) * 10)%Q in
  let score := (score - req_indexPenalty q)%Q in
  {| display := req_display q; value := req_value q; score := score;
     consumedLen := req_consumedLen q; ctype := req_type q |}.

Definition pairOf (q : Request) : jsstring * nat := (req_value q, req_consumedLen q).

(** [processed] holds the keys of the pairs [seen]. *)
Definition processed_of (seen : list (jsstring * nat)) (processed : gset jsstring) : Prop :=
  ∀ k, k ∈ processed ↔ ∃ v n, (v, n) ∈ seen ∧ k = resultKey v n.

(** The first request of every (value, consumedLen) pair not yet [seen]. *)
Fixpoint firstPerPair (seen : list (jsstring * nat)) (qs : list Request)
    : list Request :=
  match qs with
  | [] => []
  | q :: qs' =>
      if bool_decide (pairOf q ∈ seen) then firstPerPair seen qs'
      else q :: firstPerPair (pairOf q :: seen) qs'
  end.

(** The calls of a [forEach] over a list of the dictionary, from index
    [from]. *)
Fixpoint listRequests (baseScore : Q) (consumedLen : nat) (type : CandidateType)
    (penaltyStep : Q) (from : nat) (entries : list jsstring) : list Request :=
  match entries with
  | [] => []
  | h :: entries' =>
      {| req_display := h; req_value := h; req_baseScore := baseScore;
         req_consumedLen := consumedLen; req_type := type;
         req_indexPenalty := (inject_Z (Z.of_nat from) * penaltyStep)%Q |}
      :: listRequests baseScore consumedLen type penaltyStep (S from) entries'
  end.

Definition phraseTraceStep (segPath : list Segment)
    (acc : jsstring * nat * list Request) (i : nat) : jsstring * nat * list Request :=
  let '(accumulatedPinyin, accumulatedLen, qs) := acc in
  match segPath !! i with
  | Some s =>
      let accumulatedPinyin :=
        accumulatedPinyin ++ (if 0 <? i then js "'" else []) ++ str s in
      let accumulatedLen := accumulatedLen + len s in
      (accumulatedPinyin, accumulatedLen,
       qs ++ match COMMON_PHRASES !! accumulatedPinyin with
             | Some phrases => listRequests 150 accumulatedLen Phrase 0.1 0 phrases
             | None => []
             end)
  | None => acc
  end.

Definition pathRequests (segPath : list Segment) : list Request :=
  if length segPath =? 0 then []
  else
    (foldl (phraseTraceStep segPath) ([], 0, [])
           (seq 0 (length segPath `min` 4))).2 ++
    match segPath !! 0 with
    | Some firstSeg =>
        match PINYIN_TO_HANZI !! str firstSeg with
        | Some hanzis => listRequests 50 (len firstSeg) Char 0.5 0 hanzis
        | None => []
        end
    | None => []
    end.

Definition requests (pinyinKeys : list KeyGroup) (segs : list (list Segment))
    (focused : option Segment) : list Request :=
  match focused with
  | Some f =>
      match PINYIN_TO_HANZI !! str f with
      | Some hanzis => listRequests 100 (len f) Char 0.1 0 hanzis
      | None => []
      end
  | None =>
      if 0 <? length segs then concat (pathRequests <$> segs)
      else
        let raw := concat (rawLetter <$> pinyinKeys) in
        [ {| req_display := raw; req_value := raw; req_baseScore := 0;
             req_consumedLen := length pinyinKeys; req_type := Raw;
             req_indexPenalty := 0 |} ]
  end.

(** [strs.join("'")]: the key of [COMMON_PHRASES] for a run of syllables. *)
Fixpoint joinApostrophe (strs : list jsstring) : jsstring :=
  match strs with
  | [] => []
  | s :: rest =>
      match rest with
      | [] => s
      | _ :: _ => s ++ js "'" ++ joinApostrophe rest
      end
  end.

(** What a memo table of lists without duplicates holds. *)
Definition memo_NoDup (memo : Memo) : Prop :=
  ∀ i r, memo !! i = Some r → NoDup r.

(** The phrase of the scenario of the README: [pu'rui] is the phrase of
    code points U+666E U+745E. *)
Definition puRui : jsstring := [0x666e%N; 0x745e%N].

(** The order of the syllable row: fewer keys first, and among segments of
    the same number of keys, the syllable that [localeCompare] does not put
    after. *)
Definition row_order (a b : Segment) : Prop :=
  len a < len b ∨ (len a = len b ∧ (localeCompare (str a) (str b) ≤ 0)%Z).

End Specification.

(** What the reachable states of the composition satisfy: the staged text
    is no longer than the texts of the selection history together, and it is
    non-empty only while keys are pending. *)
Definition composition_inv (s : State) : Prop :=
  length (stagedText s) ≤ sum_list ((λ h, length (text h)) <$> selectionHistory s) ∧
  (stagedText s ≠ [] → pinyinKeys s ≠ []).

(** The first listed letter of a key group. *)
Definition first_listed_letter (k : KeyGroup) (c : jsstring) : Prop :=
  ∃ rest, chars k = Some (c :: rest).

(** [Idle] and [Composing] of the composition state machine. *)
Definition idle (s : State) : Prop := pinyinKeys s = [] ∧ stagedText s = [].
Definition composing (s : State) : Prop := pinyinKeys s ≠ [] ∨ stagedText s ≠ [].

(** C6 as the specification words it, for one state [r] and one key [data]
    of the single letter [c]: emitted directly when idle, not emitted
    directly (a candidate is picked first) when composing. *)
Definition punctuation_as_specified
    (dispatch_ : Event → State → State * list Output)
    (r : State) (data : KeyGroup) (c : jsstring) : Prop :=
  (idle r → dispatch_ (Tap data) r = (r, [KeyPress c])) ∧
  (composing r → dispatch_ (Tap data) r ≠ (r, [KeyPress c])).

(** A table of the dictionary that lists the empty string nowhere. *)
Definition no_empty_entry (table : gmap jsstring (list jsstring)) : Prop :=
  ∀ k entries, table !! k = Some entries → [] ∉ entries.

(** The dictionary lists [phrase] under the one key [key] of the phrase
    table, and in no list of characters. *)
Definition listed_only_under (phrase key : jsstring)
    (PINYIN_TO_HANZI COMMON_PHRASES : gmap jsstring (list jsstring)) : Prop :=
  (∀ k phrases, COMMON_PHRASES !! k = Some phrases → phrase ∈ phrases → k = key) ∧
  (∀ k hanzis, PINYIN_TO_HANZI !! k = Some hanzis → phrase ∉ hanzis).

(** C7 as the specification words it, for a candidate list [cs]: the
    phrase is there with [consumedLen] 2 and beats every single-character
    candidate that consumes one key. *)
Definition phrase_as_specified (cs : list Candidate) : Prop :=
  ∃ c, c ∈ cs ∧ value c = puRui ∧ consumedLen c = 2 ∧
       ∀ d, d ∈ cs → length (value d) = 1 → consumedLen d = 1 →
            (score d < score c)%Q.

(** ** Concrete keys, dictionaries and states

    Two letter keys in the manner of [types.ts] (a group of five letters), a
    punctuation key, a key whose letters are upper case, and three small
    dictionaries. Hanzi are given by their code points. *)

Definition letterKey (name : string) (letters : list string) : KeyGroup :=
  {| label := js name; subLabel := None; chars := Some (js <$> letters);
     action := None; width := Some w_grow; type := char_group |}.

Definition keyQWERT : KeyGroup := letterKey "QWERT" ["q"; "w"; "e"; "r"; "t"]%string.
Definition keyYUIOP : KeyGroup := letterKey "YUIOP" ["y"; "u"; "i"; "o"; "p"]%string.
Definition keyComma : KeyGroup := letterKey "," [","]%string.
Definition keyUpperQW : KeyGroup := letterKey "QW" ["Q"; "W"]%string.
Definition keyNoLetters : KeyGroup := letterKey "" [].

Definition actionKey (name : string) : KeyGroup :=
  {| label := js name; subLabel := None; chars := None;
     action := Some (js name); width := Some w_sm; type := action_key |}.

Definition keyBackspace : KeyGroup := actionKey "backspace".
Definition keyEnter : KeyGroup := actionKey "enter".

(** U+666E, U+94FA, U+745E, U+9C7C, U+4E00. *)
Definition hanzi_pu3 : jsstring := [0x666e%N].
Definition hanzi_pu1 : jsstring := [0x94fa%N].
Definition hanzi_rui : jsstring := [0x745e%N].
Definition hanzi_yu : jsstring := [0x9c7c%N].
Definition hanzi_yi : jsstring := [0x4e00%N].

(** The phrase scenario: syllables [pu] and [rui], the phrase [pu'rui]. *)
Definition phraseValid : list jsstring := [js "pu"; js "rui"].
Definition phraseHanzi : gmap jsstring (list jsstring) :=
  {[ js "pu" := [hanzi_pu3; hanzi_pu1]; js "rui" := [hanzi_rui] ]}.
Definition phrasePhrases : gmap jsstring (list jsstring) :=
  {[ js "pu'rui" := [puRui] ]}.
Definition phraseBuffer : list KeyGroup :=
  [keyYUIOP; keyYUIOP; keyQWERT; keyYUIOP; keyYUIOP].

(** The phrase scenario with more syllables on the same keys: [o] on every
    key of the second group, [pei] across the two groups, so that the buffer
    has three segmentations. U+54E6, U+914D. *)
Definition hanzi_o : jsstring := [0x54e6%N].
Definition hanzi_pei : jsstring := [0x914d%N].
Definition crowdedValid : list jsstring := [js "pu"; js "rui"; js "o"; js "pei"].
Definition crowdedHanzi : gmap jsstring (list jsstring) :=
  {[ js "pu" := [hanzi_pu3; hanzi_pu1]; js "rui" := [hanzi_rui];
     js "o" := [hanzi_o]; js "pei" := [hanzi_pei] ]}.

(** Two syllables on the same keys: [pu] and [yu]. *)
Definition tieValid : list jsstring := [js "yu"; js "pu"].
Definition tieHanzi : gmap jsstring (list jsstring) :=
  {[ js "pu" := [hanzi_pu3]; js "yu" := [hanzi_yu] ]}.
Definition tieBuffer : list KeyGroup := [keyYUIOP; keyYUIOP].

(** A dictionary whose list for [yi] holds an empty string. *)
Definition emptyEntryValid : list jsstring := [js "yi"].
Definition emptyEntryHanzi : gmap jsstring (list jsstring) :=
  {[ js "yi" := [hanzi_yi; []] ]}.

Definition emptyEntryStep : Event → State → State :=
  step asciiLower emptyEntryValid emptyEntryHanzi ∅.

(** Six taps on [keyYUIOP], then a click on the first candidate. *)
Definition sixTaps : State :=
  emptyEntryStep (Tap keyYUIOP) (emptyEntryStep (Tap keyYUIOP)
    (emptyEntryStep (Tap keyYUIOP) (emptyEntryStep (Tap keyYUIOP)
      (emptyEntryStep (Tap keyYUIOP) (emptyEntryStep (Tap keyYUIOP) initialState))))).

Definition candidate_yi : Candidate :=
  {| display := hanzi_yi; value := hanzi_yi; score := (50 + 1 * 5 + 0 * 10 - 0 * 0.5)%Q;
     consumedLen := 2; ctype := Char |}.

Definition candidate_empty : Candidate :=
  {| display := []; value := []; score := (50 + 0 * 5 + 0 * 10 - 1 * 0.5)%Q;
     consumedLen := 2; ctype := Char |}.

(** The dictionary of the one syllable [yi] with its one character, and that
    character as it is offered again after one pick of it. *)
Definition undoValid : list jsstring := [js "yi"].
Definition undoHanzi : gmap jsstring (list jsstring) := {[ js "yi" := [hanzi_yi] ]}.
Definition candidate_yi_again : Candidate :=
  {| display := hanzi_yi; value := hanzi_yi; score := (50 + 1 * 5 + 1 * 10 - 0 * 0.5)%Q;
     consumedLen := 2; ctype := Char |}.

Definition afterFirstPick : State := emptyEntryStep (CandidateClick candidate_yi) sixTaps.

(** A composing state of the phrase scenario: one letter key pending. *)
Definition onePending : State :=
  step asciiLower phraseValid phraseHanzi phrasePhrases (Tap keyYUIOP) initialState.

(** * Proofs *)

(** ** Key-Group Matcher *)

Section MatcherProofs.

Variable toLowerCase : jsstring → jsstring.

Lemma matchesAt_true target groups i :
  matchesAt toLowerCase target groups i = true ↔
  ∃ c g allowed, target !! i = Some c ∧ groups !! i = Some g ∧
                 chars g = Some allowed ∧ toLowerCase [c] ∈ allowed.
Proof.
  unfold matchesAt. split.
  - destruct (target !! i) as [c|]; [|done].
    destruct (groups !! i) as [g|]; [|done].
    destruct (chars g) as [allowed|] eqn:Ha; [|done].
    intros H%bool_decide_eq_true. by exists c, g, allowed.
  - intros (c & g & allowed & -> & -> & -> & H). by apply bool_decide_eq_true.
Qed.

Lemma matchesGroups_length target groups :
  matchesGroups toLowerCase target groups = true → length target = length groups.
Proof.
  unfold matchesGroups.
  destruct (length target =? length groups) eqn:E; [|done].
  intros _. by apply Nat.eqb_eq.
Qed.

Lemma matchesGroups_true target groups :
  matchesGroups toLowerCase target groups = true ↔
  matches_as_listed toLowerCase target groups.
Proof.
  unfold matchesGroups, matches_as_listed.
  destruct (length target =? length groups) eqn:E; simpl.
  - apply Nat.eqb_eq in E. rewrite forallb_forall. split.
    + intros H. split; [done|]. intros i c g Hc Hg.
      assert (Hi : In i (seq 0 (length target))).
      { apply in_seq. apply lookup_lt_Some in Hc. lia. }
      apply H, matchesAt_true in Hi as (c' & g' & allowed & ? & ? & ? & ?).
      exists allowed. by simplify_eq.
    + intros [_ H] i [_ Hi]%in_seq. simpl in Hi.
      destruct (lookup_lt_is_Some_2 target i Hi) as [c Hc].
      destruct (lookup_lt_is_Some_2 groups i ltac:(lia)) as [g Hg].
      destruct (H i c g Hc Hg) as (allowed & ? & ?).
      apply matchesAt_true. by exists c, g, allowed.
  - apply Nat.eqb_neq in E. split; [done|]. by intros [? _].
Qed.

(** C3 (as amended). [matchesGroups] is false when the lengths differ;
    otherwise it is true exactly when, at every position, the lower-cased
    letter of the syllable is one of the letters of the group as they are
    listed (the letters of the group are not case-folded); a group without
    [chars] makes it false. Being a function of its two arguments, it has no
    state dependency. *)
Theorem matchesGroups_spec (target : jsstring) (groups : list KeyGroup) :
  (length target ≠ length groups →
     matchesGroups toLowerCase target groups = false) ∧
  (matchesGroups toLowerCase target groups = true ↔
     matches_as_listed toLowerCase target groups) ∧
  (∀ i g, groups !! i = Some g → chars g = None →
     matchesGroups toLowerCase target groups = false).
Proof.
  split; [|split].
  - intros Hne. apply not_true_is_false. by intros ?%matchesGroups_length.
  - apply matchesGroups_true.
  - intros i g Hg Hnone. apply not_true_is_false.
    intros [Hlen H]%matchesGroups_true.
    destruct (lookup_lt_is_Some_2 target i) as [c Hc].
    { rewrite Hlen. by eapply lookup_lt_Some. }
    destruct (H i c g Hc Hg) as (allowed & ? & _). congruence.
Qed.

End MatcherProofs.

(** ** Sorting *)

Section SortProofs.

Context {A : Type} (leb : A → A → bool).

Lemma insertBy_Permutation x l : insertBy leb x l ≡ₚ x :: l.
Proof.
  induction l as [|y l IH]; simpl; [done|].
  destruct (leb x y); [done|]. rewrite IH. apply Permutation_swap.
Qed.

Lemma sortBy_Permutation l : sortBy leb l ≡ₚ l.
Proof.
  induction l as [|x l IH]; simpl; [done|].
  fold (sortBy leb l). by rewrite insertBy_Permutation, IH.
Qed.

Lemma elem_of_sortBy x l : x ∈ sortBy leb l ↔ x ∈ l.
Proof. by rewrite sortBy_Permutation. Qed.

Lemma sortBy_nil_inv l : sortBy leb l = [] → l = [].
Proof.
  intros H. apply Permutation_nil_r. rewrite <- H. symmetry. apply sortBy_Permutation.
Qed.

Hypothesis leb_total : ∀ a b, leb a b = true ∨ leb b a = true.
Hypothesis leb_trans : ∀ a b c, leb a b = true → leb b c = true → leb a c = true.

Lemma insertBy_StronglySorted x l :
  StronglySorted (λ a b, leb a b = true) l →
  StronglySorted (λ a b, leb a b = true) (insertBy leb x l).
Proof.
  induction 1 as [|y l Hl IH Hy]; simpl.
  - repeat constructor.
  - destruct (leb x y) eqn:E.
    + constructor; [by constructor|]. constructor; [done|].
      eapply Forall_impl; [exact Hy|]. intros z Hz. by eapply leb_trans.
    + constructor; [done|]. rewrite insertBy_Permutation.
      constructor; [|done]. destruct (leb_total x y); congruence.
Qed.

Lemma sortBy_StronglySorted l :
  StronglySorted (λ a b, leb a b = true) (sortBy leb l).
Proof.
  induction l as [|x l IH]; simpl; [constructor|].
  by apply insertBy_StronglySorted.
Qed.

End SortProofs.

(** The same, for a relation [R] that the boolean comparison decides. *)
Lemma sortBy_sorted_rel {A : Type} (leb : A → A → bool) (R : A → A → Prop) l :
  (∀ a b, leb a b = true ↔ R a b) →
  (∀ a b, R a b ∨ R b a) →
  (∀ a b c, R a b → R b c → R a c) →
  StronglySorted R (sortBy leb l).
Proof.
  intros Hdec Htotal Htrans.
  assert (H : StronglySorted (λ a b, leb a b = true) (sortBy leb l)).
  { apply sortBy_StronglySorted.
    - intros a b. rewrite !Hdec. apply Htotal.
    - intros a b c. rewrite !Hdec. apply Htrans. }
  induction H as [|x l' Hl IH Hx]; constructor; [done|].
  eapply Forall_impl; [exact Hx|]. intros y. apply Hdec.
Qed.

(** ** Segmentation Engine *)

Section SegmentationProofs.

Variable toLowerCase : jsstring → jsstring.
Variable VALID_PINYINS : list jsstring.

Local Arguments Nat.min : simpl never.

Local Abbreviation matches := (matchesGroups toLowerCase).
Local Abbreviation decomp := (decomposes toLowerCase VALID_PINYINS).
Local Abbreviation full_decomp := (full_decomposition toLowerCase VALID_PINYINS).
Local Abbreviation chunks := (chunkMatches toLowerCase VALID_PINYINS).

Lemma elem_of_chunkMatches m len chunkSlice :
  m ∈ chunks len chunkSlice ↔
  m ∈ VALID_PINYINS ∧ length m = len ∧ matches m chunkSlice = true.
Proof.
  unfold chunkMatches.
  rewrite !list_elem_of_In, filter_In, andb_true_iff, Nat.eqb_eq. tauto.
Qed.

Lemma decomposes_full buffer d :
  decomp buffer d ↔
  full_decomp buffer d ∧ Forall (λ s, str s ≠ []) d.
Proof.
  unfold full_decomposition. revert buffer.
  induction d as [|s d IH]; intros buffer; simpl.
  - split.
    + intros ->. by repeat split.
    + intros [[H _] _]. symmetry in H. by apply length_zero_iff_nil in H.
  - change (list_fmap Segment nat len d) with (len <$> d).
    rewrite IH, Forall_cons, length_drop. split.
    + intros ([Hlo Hhi] & Hstr & Hin & Hm & (Hsum & Hc) & Hne).
      repeat split; try done; try lia.
      intros E. rewrite E in Hstr. simpl in Hstr. lia.
    + intros ((Hsum & Hin & H6 & Hm & Hc) & Hne & Hall).
      pose proof (matchesGroups_length _ _ _ Hm) as Hl.
      rewrite length_take in Hl.
      assert (length (str s) ≠ 0) by (by destruct (str s)).
      repeat split; try done; lia.
Qed.

Lemma decomposes_nil d : decomp [] d ↔ d = [].
Proof.
  destruct d as [|s d]; simpl; [done|].
  split; [|done]. intros ([? ?] & _). lia.
Qed.

Section Solve.

Variable pinyinKeys : list KeyGroup.

Local Abbreviation memo_inv := (memo_ok toLowerCase VALID_PINYINS pinyinKeys).

Local Abbreviation solves := (solves toLowerCase VALID_PINYINS pinyinKeys).

Lemma solveMatch_foldl solve_ index len ms results memo :
  solves solve_ (index + len) → memo_inv memo →
  let res := foldl (solveMatch solve_ index len) (results, memo) ms in
  memo_inv res.2 ∧
  ∀ d, d ∈ res.1 ↔
       d ∈ results ∨
       ∃ m d', d = {| str := m; len := len |} :: d' ∧ m ∈ ms ∧
               decomp (drop (index + len) pinyinKeys) d'.
Proof.
  intros Hrec. revert results memo.
  induction ms as [|m ms IH]; intros results memo Hmemo; simpl.
  - split; [done|]. intros d. split; [by left|].
    intros [?|(m & d' & _ & Hm & _)]; [done|]. by apply elem_of_nil in Hm.
  - destruct (Hrec memo Hmemo) as [Hmemo' Hsuf].
    unfold solveMatch at 2.
    destruct (solve_ (index + len) memo) as [suffixes memo'] eqn:E.
    simpl in Hmemo', Hsuf.
    destruct (IH (results ++ ((λ suffix, {| str := m; len := len |} :: suffix)
                                <$> suffixes)) memo' Hmemo') as [Hok Hres].
    split; [done|]. intros d. rewrite Hres, elem_of_app, list_elem_of_fmap.
    split.
    + intros [[?|(d' & -> & Hd')]|(m' & d' & -> & Hm' & Hd')].
      * by left.
      * right. exists m, d'. rewrite <- Hsuf. repeat split; [|done]. apply list_elem_of_here.
      * right. exists m', d'. repeat split; [|done]. by apply list_elem_of_further.
    + intros [?|(m' & d' & -> & Hm' & Hd')]; [by left; left|].
      apply elem_of_cons in Hm' as [->|Hm'].
      * left; right. exists d'. by rewrite Hsuf.
      * right. by exists m', d'.
Qed.

Lemma solveLen_foldl solve_ index ls results memo :
  (∀ len, len ∈ ls → solves solve_ (index + len)) → memo_inv memo →
  let res := foldl (solveLen toLowerCase VALID_PINYINS solve_ pinyinKeys index)
                   (results, memo) ls in
  memo_inv res.2 ∧
  ∀ d, d ∈ res.1 ↔
       d ∈ results ∨
       ∃ len m d', d = {| str := m; len := len |} :: d' ∧ len ∈ ls ∧
                   m ∈ chunks len (slice pinyinKeys index (index + len)) ∧
                   decomp (drop (index + len) pinyinKeys) d'.
Proof.
  revert results memo.
  induction ls as [|len ls IH]; intros results memo Hrec Hmemo; simpl.
  - split; [done|]. intros d. split; [by left|].
    intros [?|(len & m & d' & _ & Hl & _)]; [done|]. by apply elem_of_nil in Hl.
  - destruct (solveMatch_foldl solve_ index len
                (chunks len (slice pinyinKeys index (index + len)))
                results memo) as [Hok1 Hres1];
      [apply Hrec, list_elem_of_here|done|].
    change (foldl (solveMatch solve_ index len) (results, memo) _)
      with (solveLen toLowerCase VALID_PINYINS solve_ pinyinKeys index
              (results, memo) len) in Hok1, Hres1.
    destruct (solveLen toLowerCase VALID_PINYINS solve_ pinyinKeys index
                (results, memo) len) as [results1 memo1].
    simpl in Hok1, Hres1.
    destruct (IH results1 memo1) as [Hok Hres];
      [intros; by apply Hrec, list_elem_of_further|done|].
    split; [done|]. intros d. rewrite Hres, Hres1. split.
    + intros [[?|(m & d' & -> & Hm & Hd')]|(len' & m & d' & -> & Hl & Hm & Hd')].
      * by left.
      * right. exists len, m, d'. repeat split; try done. apply list_elem_of_here.
      * right. exists len', m, d'. repeat split; try done. by apply list_elem_of_further.
    + intros [?|(len' & m & d' & -> & Hl & Hm & Hd')]; [by left; left|].
      apply elem_of_cons in Hl as [->|Hl].
      * left; right. by exists m, d'.
      * right. by exists len', m, d'.
Qed.

Lemma solve_correct fuel index :
  index ≤ length pinyinKeys → length pinyinKeys - index < fuel →
  solves (solve toLowerCase VALID_PINYINS pinyinKeys fuel) index.
Proof.
  revert index. induction fuel as [|fuel IH]; intros index Hle Hfuel; [lia|].
  intros memo Hmemo. simpl.
  destruct (index =? length pinyinKeys) eqn:Eend.
  { apply Nat.eqb_eq in Eend. subst index. simpl. split; [done|].
    intros d. rewrite drop_all, decomposes_nil. apply list_elem_of_singleton. }
  apply Nat.eqb_neq in Eend.
  destruct (memo !! index) as [cached|] eqn:Ememo; simpl.
  { split; [done|]. by apply Hmemo. }
  destruct (solveLen_foldl (solve toLowerCase VALID_PINYINS pinyinKeys fuel) index
              (seq 1 (6 `min` (length pinyinKeys - index))) [] memo)
    as [Hok Hres]; [|done|].
  { intros len [Hlo Hhi]%elem_of_seq. apply IH; lia. }
  destruct (foldl _ _ _) as [results memo1]. simpl in Hok, Hres.
  assert (Hthis : ∀ d, d ∈ results ↔ decomp (drop index pinyinKeys) d).
  { intros d. rewrite Hres. split.
    - intros [H|(len & m & d' & -> & [Hlo Hhi]%elem_of_seq & Hm & Hd')].
      { by apply elem_of_nil in H. }
      apply elem_of_chunkMatches in Hm as (Hin & Hlen & Hm).
      unfold slice in Hm. replace (index + len - index) with len in Hm by lia.
      simpl. rewrite length_drop, drop_drop. repeat split; try done; lia.
    - destruct d as [|s d']; simpl.
      { intros H%(f_equal length). rewrite length_drop in H. simpl in H. lia. }
      rewrite length_drop, drop_drop.
      intros ([Hlo Hhi] & Hlen & Hin & Hm & Hd').
      right. exists (len s), (str s), d'. destruct s as [m len]; simpl in *.
      repeat split; try done.
      + apply elem_of_seq. lia.
      + apply elem_of_chunkMatches. unfold slice.
        replace (index + len - index) with len by lia. done. }
  split; [|done].
  intros i r. simpl. rewrite lookup_insert. case_decide as Ei.
  - intros [= <-]. by subst i.
  - apply Hok.
Qed.

End Solve.

Lemma memo_ok_empty pinyinKeys : memo_ok toLowerCase VALID_PINYINS pinyinKeys ∅.
Proof. intros i r H. by rewrite lookup_empty in H. Qed.

Lemma segmentations_decomposes pinyinKeys d :
  pinyinKeys ≠ [] →
  d ∈ segmentations toLowerCase VALID_PINYINS pinyinKeys ↔ decomp pinyinKeys d.
Proof.
  intros Hne. unfold segmentations.
  destruct (length pinyinKeys =? 0) eqn:E.
  { apply Nat.eqb_eq, length_zero_iff_nil in E. done. }
  destruct (solve_correct pinyinKeys (S (length pinyinKeys)) 0) with (memo := (∅ : Memo))
    as [_ H]; [lia|lia|apply memo_ok_empty|].
  by rewrite H, drop_0.
Qed.

(** C1 (as amended). For every non-empty buffer, [segmentations] returns
    exactly the full-length decompositions into non-empty dictionary
    syllables: the lengths of the segments of a returned decomposition sum to
    the length of the buffer, each syllable is a dictionary syllable of at
    most six letters that matches the consecutive slice it consumes, and
    every such decomposition is returned. *)
Theorem segmentations_exact (pinyinKeys : list KeyGroup) (d : list Segment) :
  pinyinKeys ≠ [] →
  d ∈ segmentations toLowerCase VALID_PINYINS pinyinKeys ↔
  full_decomp pinyinKeys d ∧ Forall (λ s, str s ≠ []) d.
Proof.
  intros Hne. by rewrite segmentations_decomposes, decomposes_full.
Qed.

End SegmentationProofs.

(** ** The empty buffer *)

Section EmptyBuffer.

Variable toLowerCase : jsstring → jsstring.
Variable localeCompare : jsstring → jsstring → Z.
Variable VALID_PINYINS : list jsstring.
Variable PINYIN_TO_HANZI : gmap jsstring (list jsstring).
Variable COMMON_PHRASES : gmap jsstring (list jsstring).

(** C2 (as amended). For the empty buffer the guard of [segmentations]
    returns the empty result set (no decomposition at all, not the one empty
    decomposition); [candidates] returns the empty list, whatever the
    segmentations, usage history, mode and focus, and
    [availablePinyinSegments] returns the empty list. *)
Theorem empty_buffer_results :
  segmentations toLowerCase VALID_PINYINS [] = [] ∧
  (∀ segs usage mode focused,
     candidates PINYIN_TO_HANZI COMMON_PHRASES [] segs usage mode focused = []) ∧
  availablePinyinSegments toLowerCase localeCompare VALID_PINYINS [] = [].
Proof. by repeat split. Qed.

(** Inside [segmentations], the recursion itself does produce the one empty
    decomposition at the end of the buffer; the guard is what empties the
    result for the empty buffer. *)
Lemma solve_at_end pinyinKeys fuel memo :
  solve toLowerCase VALID_PINYINS pinyinKeys (S fuel) (length pinyinKeys) memo
  = ([[]], memo).
Proof. simpl. by rewrite Nat.eqb_refl. Qed.

End EmptyBuffer.

(** ** The syllable row *)

Section SyllableRow.

Variable toLowerCase : jsstring → jsstring.
Variable localeCompare : jsstring → jsstring → Z.
Variable VALID_PINYINS : list jsstring.

Local Arguments Nat.min : simpl never.

Local Abbreviation row_le := (row_order localeCompare).

Lemma segmentLeb_row_order a b :
  segmentLeb localeCompare a b = true ↔ row_le a b.
Proof.
  unfold segmentLeb, segmentCompare, row_order. rewrite Z.leb_le.
  destruct (Z.eqb_spec (Z.of_nat (len a) - Z.of_nat (len b)) 0); lia.
Qed.

Lemma prefix_rows_elem pinyinKeys ls results s :
  s ∈ foldl (λ results len,
               results ++ ((λ m, {| str := m; len := len |}) <$>
                 chunkMatches toLowerCase VALID_PINYINS len (slice pinyinKeys 0 len)))
            results ls ↔
  s ∈ results ∨
  (len s ∈ ls ∧
   str s ∈ chunkMatches toLowerCase VALID_PINYINS (len s) (take (len s) pinyinKeys)).
Proof.
  destruct s as [m0 l0]. simpl. revert results.
  induction ls as [|l ls IH]; intros results; simpl.
  - rewrite elem_of_nil. tauto.
  - rewrite IH, elem_of_app, list_elem_of_fmap, elem_of_cons.
    unfold slice. rewrite drop_0, Nat.sub_0_r. split.
    + intros [[?|(m & [= -> ->] & Hm)]|?]; tauto.
    + intros [?|[[-> |?] ?]]; try tauto.
      left; right. by exists m0.
Qed.

(** The row holds exactly the dictionary syllables that match a prefix of
    one to six keys of the buffer. *)
Lemma elem_of_availablePinyinSegments pinyinKeys s :
  s ∈ availablePinyinSegments toLowerCase localeCompare VALID_PINYINS pinyinKeys ↔
  1 ≤ len s ≤ 6 `min` length pinyinKeys ∧
  str s ∈ VALID_PINYINS ∧ length (str s) = len s ∧
  matchesGroups toLowerCase (str s) (take (len s) pinyinKeys) = true.
Proof.
  unfold availablePinyinSegments.
  destruct (length pinyinKeys =? 0) eqn:E.
  - apply Nat.eqb_eq in E. rewrite E, elem_of_nil.
    split; [done|]. intros ([? ?] & _). lia.
  - rewrite elem_of_sortBy, prefix_rows_elem, elem_of_nil, elem_of_seq.
    rewrite (elem_of_chunkMatches toLowerCase VALID_PINYINS). intuition lia.
Qed.

Hypothesis localeCompare_total :
  ∀ a b, (localeCompare a b ≤ 0)%Z ∨ (localeCompare b a ≤ 0)%Z.
Hypothesis localeCompare_trans :
  ∀ a b c, (localeCompare a b ≤ 0)%Z → (localeCompare b c ≤ 0)%Z →
           (localeCompare a c ≤ 0)%Z.

(** Two lists in strong order that hold the same elements are the same
    list, when the order tells the elements apart. *)
Lemma StronglySorted_Permutation_eq {A : Type} (R : A → A → Prop) (l1 l2 : list A) :
  (∀ a b, a ∈ l1 → b ∈ l1 → R a b → R b a → a = b) →
  StronglySorted R l1 → StronglySorted R l2 → l1 ≡ₚ l2 → l1 = l2.
Proof.
  revert l2. induction l1 as [|x l1 IH]; intros l2 Hanti H1 H2 Hp.
  - by apply Permutation_nil_l in Hp.
  - destruct l2 as [|y l2]; [by apply Permutation_nil_r in Hp|].
    apply StronglySorted_inv in H1 as [H1 Hx]. apply StronglySorted_inv in H2 as [H2 Hy].
    rewrite Forall_forall in Hx, Hy.
    assert (Hxy : x = y).
    { assert (Hx2 : x ∈ y :: l2) by (rewrite <- Hp; apply list_elem_of_here).
      assert (Hy1 : y ∈ x :: l1) by (rewrite Hp; apply list_elem_of_here).
      apply elem_of_cons in Hx2 as [?|Hx2]; [done|].
      apply elem_of_cons in Hy1 as [?|Hy1]; [done|].
      apply Hanti; [apply list_elem_of_here|by apply list_elem_of_further| |];
        [by apply Hx|by apply Hy]. }
    subst y. f_equal. apply IH; try done.
    + intros a b Ha Hb. apply Hanti; by apply list_elem_of_further.
    + by apply Permutation_cons_inv in Hp.
Qed.

Lemma chunkMatches_Permutation dictionary dictionary' len chunkSlice :
  dictionary' ≡ₚ dictionary →
  chunkMatches toLowerCase dictionary' len chunkSlice
  ≡ₚ chunkMatches toLowerCase dictionary len chunkSlice.
Proof.
  unfold chunkMatches. induction 1 as [|x l l' _ IH|x y l|l l' l'' _ IH1 _ IH2]; simpl.
  - done.
  - destruct (_ && _); [by constructor|done].
  - do 2 destruct (_ && _); try done. apply perm_swap.
  - by etrans.
Qed.

Lemma prefix_rows_Permutation dictionary dictionary' pinyinKeys ls results results' :
  dictionary' ≡ₚ dictionary → results' ≡ₚ results →
  foldl (λ results len,
           results ++ ((λ m, {| str := m; len := len |}) <$>
             chunkMatches toLowerCase dictionary' len (slice pinyinKeys 0 len)))
        results' ls
  ≡ₚ foldl (λ results len,
           results ++ ((λ m, {| str := m; len := len |}) <$>
             chunkMatches toLowerCase dictionary len (slice pinyinKeys 0 len)))
        results ls.
Proof.
  intros Hd. revert results results'.
  induction ls as [|l ls IH]; intros results results' Hr; simpl; [done|].
  apply IH. apply Permutation_app; [done|].
  by apply fmap_Permutation, chunkMatches_Permutation.
Qed.

Lemma availablePinyinSegments_Permutation dictionary dictionary' pinyinKeys :
  dictionary' ≡ₚ dictionary →
  availablePinyinSegments toLowerCase localeCompare dictionary' pinyinKeys
  ≡ₚ availablePinyinSegments toLowerCase localeCompare dictionary pinyinKeys.
Proof.
  intros Hd. unfold availablePinyinSegments.
  destruct (length pinyinKeys =? 0); [done|].
  rewrite !sortBy_Permutation. by apply prefix_rows_Permutation.
Qed.

Lemma availablePinyinSegments_StronglySorted dictionary pinyinKeys :
  StronglySorted (row_order localeCompare)
    (availablePinyinSegments toLowerCase localeCompare dictionary pinyinKeys).
Proof.
  unfold availablePinyinSegments.
  destruct (length pinyinKeys =? 0); [constructor|].
  apply sortBy_sorted_rel.
  - apply segmentLeb_row_order.
  - intros a b. unfold row_order.
    destruct (localeCompare_total (str a) (str b)); lia.
  - intros a b c. unfold row_order.
    intros [?|[? Hab]] [?|[? Hbc]]; try lia.
    right. split; [lia|]. by eapply localeCompare_trans.
Qed.

(** C10. With [localeCompare] a consistent comparator, for a non-empty
    buffer: the row is sorted by the number of keys consumed, ascending, and
    among segments that consume the same number of keys by [localeCompare] on
    the syllables (every segment of the row precedes, in this order, all the
    segments after it); it holds exactly the dictionary syllables that match
    the first one to six keys; and the order in which the dictionary lists
    its syllables is not kept: when [localeCompare] tells the syllables of
    the dictionary apart, a dictionary that lists the same syllables in any
    other order gives the very same row. *)
Theorem availablePinyinSegments_sorted (pinyinKeys : list KeyGroup) :
  pinyinKeys ≠ [] →
  let row := availablePinyinSegments toLowerCase localeCompare VALID_PINYINS pinyinKeys in
  StronglySorted (row_order localeCompare) row ∧
  (∀ s, s ∈ row ↔
        1 ≤ len s ≤ 6 `min` length pinyinKeys ∧
        str s ∈ VALID_PINYINS ∧ length (str s) = len s ∧
        matchesGroups toLowerCase (str s) (take (len s) pinyinKeys) = true) ∧
  ((∀ a b, a ∈ VALID_PINYINS → b ∈ VALID_PINYINS →
           (localeCompare a b ≤ 0)%Z → (localeCompare b a ≤ 0)%Z → a = b) →
   ∀ reordered, reordered ≡ₚ VALID_PINYINS →
     availablePinyinSegments toLowerCase localeCompare reordered pinyinKeys = row).
Proof.
  intros _ row. split; [apply availablePinyinSegments_StronglySorted|].
  split; [intros s; apply elem_of_availablePinyinSegments|].
  intros Hanti reordered Hp. symmetry.
  apply (StronglySorted_Permutation_eq (row_order localeCompare)).
  - intros [m1 l1] [m2 l2] H1%elem_of_availablePinyinSegments
      H2%elem_of_availablePinyinSegments. unfold row_order. simpl in *.
    intros [?|[? Hab]] [?|[? Hba]]; try lia.
    subst l2. f_equal. apply Hanti; tauto.
  - apply availablePinyinSegments_StronglySorted.
  - apply availablePinyinSegments_StronglySorted.
  - symmetry. by apply availablePinyinSegments_Permutation.
Qed.

End SyllableRow.

(** ** Candidate Ranker *)

(** *** The keys of [processed] determine the (value, consumedLen) pair *)

Lemma js_inj s s' : js s = js s' → s = s'.
Proof.
  unfold js. revert s'.
  induction s as [|a s IH]; intros [|a' s'] H; simpl in H; try done.
  injection H as H1 H2. f_equal; [|by apply IH].
  by rewrite <- (Ascii.ascii_N_embedding a), H1, Ascii.ascii_N_embedding.
Qed.

Lemma decimal_inj n n' : decimal n = decimal n' → n = n'.
Proof.
  unfold decimal. intros H%js_inj.
  apply DecimalNat.Unsigned.to_uint_inj.
  apply (f_equal DecimalString.NilEmpty.uint_of_string) in H.
  rewrite !DecimalString.NilEmpty.usu in H. by injection H.
Qed.

Lemma decimal_no_dash n : 45%N ∉ decimal n.
Proof.
  unfold decimal. generalize (Nat.to_uint n). intros d.
  induction d; simpl; unfold js; simpl;
    rewrite ?elem_of_nil, ?elem_of_cons; intros H; try done;
    by destruct H as [?|?].
Qed.

Lemma split_at_first {A : Type} (c : A) (x y a b : list A) :
  c ∉ x → c ∉ y → x ++ c :: a = y ++ c :: b → x = y ∧ a = b.
Proof.
  revert y. induction x as [|u x IH]; intros [|v y] Hx Hy; simpl; intros H.
  - by injection H as ->.
  - injection H as -> _. exfalso. apply Hy, list_elem_of_here.
  - injection H as -> _. exfalso. apply Hx, list_elem_of_here.
  - injection H as -> H. apply not_elem_of_cons in Hx as [_ Hx].
    apply not_elem_of_cons in Hy as [_ Hy].
    destruct (IH y Hx Hy H) as [-> ->]. done.
Qed.

Lemma resultKey_inj v n v' n' :
  resultKey v n = resultKey v' n' → v = v' ∧ n = n'.
Proof.
  unfold resultKey. intros H%(f_equal reverse).
  rewrite !reverse_app in H. change (js "-") with [45%N] in H.
  rewrite <- !(assoc_L (++)) in H. simpl in H.
  apply split_at_first in H as [H1 H2].
  - split; [by apply (inj reverse)|]. by apply decimal_inj, (inj reverse).
  - rewrite elem_of_reverse. apply decimal_no_dash.
  - rewrite elem_of_reverse. apply decimal_no_dash.
Qed.

(** *** [candidates] through the calls it makes *)

Section RankerProofs.

Variable PINYIN_TO_HANZI : gmap jsstring (list jsstring).
Variable COMMON_PHRASES : gmap jsstring (list jsstring).
Variable usage : gmap jsstring nat.
Variable mode : CandidateMode.

Local Arguments Nat.min : simpl never.

Local Abbreviation run := (foldl (perform usage mode)).

Lemma forEach_listRequests baseScore consumedLen type penaltyStep from entries st :
  forEach_from
    (λ h idx, addResult usage mode h h baseScore consumedLen type
                        (inject_Z (Z.of_nat idx) * penaltyStep)%Q)
    from entries st
  = run st (listRequests baseScore consumedLen type penaltyStep from entries).
Proof.
  revert from st. induction entries as [|h entries IH]; intros from st; simpl; [done|].
  by rewrite IH.
Qed.

Lemma phraseTraceStep_app segPath idxs accP accL qs0 :
  foldl (phraseTraceStep COMMON_PHRASES segPath) (accP, accL, qs0) idxs
  = let '(p, l, qs) :=
      foldl (phraseTraceStep COMMON_PHRASES segPath) (accP, accL, []) idxs in
    (p, l, qs0 ++ qs).
Proof.
  revert accP accL qs0. induction idxs as [|i idxs IH]; intros accP accL qs0; simpl.
  - by rewrite app_nil_r.
  - destruct (segPath !! i) as [s|]; [|apply IH].
    rewrite IH. symmetry. rewrite IH.
    destruct (foldl _ _ idxs) as [[p l] qs]. by rewrite app_assoc.
Qed.

Lemma phraseStep_trace segPath idxs accP accL st :
  foldl (phraseStep COMMON_PHRASES usage mode segPath) (accP, accL, st) idxs
  = let '(p, l, qs) :=
      foldl (phraseTraceStep COMMON_PHRASES segPath) (accP, accL, []) idxs in
    (p, l, run st qs).
Proof.
  revert accP accL st. induction idxs as [|i idxs IH]; intros accP accL st; simpl; [done|].
  destruct (segPath !! i) as [s|]; [|apply IH].
  set (p1 := accP ++ (if 0 <? i then js "'" else []) ++ str s).
  set (l1 := accL + len s).
  set (qs1 := match COMMON_PHRASES !! p1 with
              | Some phrases => listRequests 150 l1 Phrase 0.1 0 phrases
              | None => []
              end).
  rewrite IH, (phraseTraceStep_app segPath idxs p1 l1 qs1).
  destruct (foldl _ (p1, l1, []) idxs) as [[p l] qs].
  rewrite foldl_app. do 2 f_equal. unfold qs1.
  destruct (COMMON_PHRASES !! p1) as [phrases|]; [|done].
  unfold forEach. by rewrite forEach_listRequests.
Qed.

Lemma addPath_trace st segPath :
  addPath PINYIN_TO_HANZI COMMON_PHRASES usage mode st segPath
  = run st (pathRequests PINYIN_TO_HANZI COMMON_PHRASES segPath).
Proof.
  unfold addPath, pathRequests.
  destruct (length segPath =? 0); [done|].
  rewrite phraseStep_trace.
  destruct (foldl _ _ _) as [[p l] qs]. simpl. rewrite foldl_app.
  destruct (segPath !! 0) as [firstSeg|]; [|done].
  destruct (PINYIN_TO_HANZI !! _) as [hanzis|]; [|done].
  unfold forEach. by rewrite forEach_listRequests.
Qed.

Lemma addPaths_trace st segs :
  foldl (addPath PINYIN_TO_HANZI COMMON_PHRASES usage mode) st segs
  = run st (concat (pathRequests PINYIN_TO_HANZI COMMON_PHRASES <$> segs)).
Proof.
  revert st. induction segs as [|segPath segs IH]; intros st; simpl; [done|].
  by rewrite foldl_app, IH, addPath_trace.
Qed.

Lemma resultList_trace pinyinKeys segs focused :
  resultList PINYIN_TO_HANZI COMMON_PHRASES pinyinKeys segs usage mode focused
  = (run (∅, []) (requests PINYIN_TO_HANZI COMMON_PHRASES pinyinKeys segs focused)).2.
Proof.
  unfold resultList, requests. destruct focused as [f|].
  - destruct (PINYIN_TO_HANZI !! _) as [hanzis|]; [|done].
    unfold forEach. by rewrite forEach_listRequests.
  - destruct (0 <? length segs); [|done]. by rewrite addPaths_trace.
Qed.

Lemma perform_seen seen processed rl q :
  processed_of seen processed → pairOf q ∈ seen →
  perform usage mode (processed, rl) q = (processed, rl).
Proof.
  intros Hp Hq. unfold perform, addResult.
  rewrite bool_decide_eq_true_2; [done|].
  apply Hp. by exists (req_value q), (req_consumedLen q).
Qed.

Lemma perform_new seen processed rl q :
  processed_of seen processed → pairOf q ∉ seen →
  ∃ processed',
    perform usage mode (processed, rl) q = (processed', rl ++ [scored usage mode q]) ∧
    processed_of (pairOf q :: seen) processed'.
Proof.
  intros Hp Hq. unfold perform, addResult.
  rewrite bool_decide_eq_false_2.
  - eexists. split; [reflexivity|].
    intros k. rewrite elem_of_union, elem_of_singleton, (Hp k). split.
    + intros [(v & n & Hin & ->)| ->].
      * exists v, n. split; [by apply list_elem_of_further|done].
      * exists (req_value q), (req_consumedLen q). split; [apply list_elem_of_here|done].
    + intros (v & n & [E|Hin]%elem_of_cons & ->).
      * right. unfold pairOf in E. by injection E as -> ->.
      * left. by exists v, n.
  - intros (v & n & Hin & [E1 E2]%resultKey_inj)%Hp.
    apply Hq. unfold pairOf. by rewrite E1, E2.
Qed.

Lemma run_firstPerPair qs seen processed rl :
  processed_of seen processed →
  (run (processed, rl) qs).2 = rl ++ (scored usage mode <$> firstPerPair seen qs).
Proof.
  revert seen processed rl.
  induction qs as [|q qs IH]; intros seen processed rl Hp; cbn [foldl firstPerPair].
  - simpl. by rewrite app_nil_r.
  - case_bool_decide as Hq.
    + erewrite perform_seen by done. by apply IH.
    + destruct (perform_new seen processed rl q Hp Hq) as (processed' & -> & Hp').
      rewrite (IH _ _ _ Hp'). by rewrite <- app_assoc.
Qed.

Lemma processed_of_empty : processed_of [] ∅.
Proof.
  intros k. split; [by intros ?%not_elem_of_empty|].
  by intros (v & n & ?%elem_of_nil & _).
Qed.

Lemma resultList_firstPerPair pinyinKeys segs focused :
  resultList PINYIN_TO_HANZI COMMON_PHRASES pinyinKeys segs usage mode focused
  = scored usage mode <$>
      firstPerPair [] (requests PINYIN_TO_HANZI COMMON_PHRASES pinyinKeys segs focused).
Proof.
  rewrite resultList_trace.
  by rewrite (run_firstPerPair _ [] ∅ [] processed_of_empty).
Qed.

End RankerProofs.

(** *** First occurrences *)

Lemma firstPerPair_elem seen qs q : q ∈ firstPerPair seen qs → q ∈ qs.
Proof.
  revert seen. induction qs as [|q' qs IH]; intros seen; simpl; [done|].
  case_bool_decide.
  - intros ?%IH. by apply list_elem_of_further.
  - intros [->|?%IH]%elem_of_cons; [apply list_elem_of_here|by apply list_elem_of_further].
Qed.

Lemma firstPerPair_unseen seen qs q : q ∈ firstPerPair seen qs → pairOf q ∉ seen.
Proof.
  revert seen. induction qs as [|q' qs IH]; intros seen; simpl.
  - by intros ?%elem_of_nil.
  - case_bool_decide as Hq'; [apply IH|].
    intros [->|H%IH]%elem_of_cons; [done|].
    by apply not_elem_of_cons in H as [_ ?].
Qed.

Lemma firstPerPair_NoDup seen qs : NoDup (pairOf <$> firstPerPair seen qs).
Proof.
  revert seen. induction qs as [|q qs IH]; intros seen; simpl; [constructor|].
  case_bool_decide; [apply IH|].
  rewrite fmap_cons. constructor; [|apply IH].
  intros (q' & E & Hq')%list_elem_of_fmap.
  apply firstPerPair_unseen in Hq'. apply Hq'. rewrite E. apply list_elem_of_here.
Qed.

(** A request that no earlier request and no seen pair anticipates is
    kept. *)
Lemma firstPerPair_first seen before q after :
  pairOf q ∉ seen → pairOf q ∉ (pairOf <$> before) →
  q ∈ firstPerPair seen (before ++ q :: after).
Proof.
  revert seen. induction before as [|q' before IH]; intros seen Hs Hb; simpl.
  - rewrite bool_decide_eq_false_2 by done. apply list_elem_of_here.
  - rewrite fmap_cons in Hb. apply not_elem_of_cons in Hb as [Hne Hb].
    case_bool_decide.
    + by apply IH.
    + apply list_elem_of_further, IH; [|done].
      apply not_elem_of_cons. by split.
Qed.

Lemma candidateLeb_le a b : candidateLeb a b = true ↔ (score b <= score a)%Q.
Proof.
  unfold candidateLeb. rewrite Qle_bool_iff. split; intros H; lra.
Qed.

Section RankedList.

Variable PINYIN_TO_HANZI : gmap jsstring (list jsstring).
Variable COMMON_PHRASES : gmap jsstring (list jsstring).

(** C4 (as amended). For every buffer, segmentation list, focus, mode and
    usage history, the candidate list is sorted by score in descending order
    in the weak sense (a candidate never scores less than a later one; equal
    scores do occur), it holds at most one candidate per (value, consumedLen)
    pair, and it is the sorted list of the first call of [addResult] of every
    pair, scored from that call alone: a later call for the same pair is
    dropped and changes nothing. *)
Theorem candidates_ranked (pinyinKeys : list KeyGroup) (segs : list (list Segment))
    (usage : gmap jsstring nat) (mode : CandidateMode) (focused : option Segment) :
  let cs := candidates PINYIN_TO_HANZI COMMON_PHRASES pinyinKeys segs usage mode focused in
  StronglySorted (λ a b, (score b <= score a)%Q) cs ∧
  NoDup ((λ c, (value c, consumedLen c)) <$> cs) ∧
  cs = sortBy candidateLeb
         (scored usage mode <$>
            firstPerPair []
              (if length pinyinKeys =? 0 then []
               else requests PINYIN_TO_HANZI COMMON_PHRASES pinyinKeys segs focused)).
Proof.
  intros cs.
  assert (Hcs : cs = sortBy candidateLeb
         (scored usage mode <$>
            firstPerPair []
              (if length pinyinKeys =? 0 then []
               else requests PINYIN_TO_HANZI COMMON_PHRASES pinyinKeys segs focused))).
  { unfold cs, candidates. destruct (length pinyinKeys =? 0); [done|].
    by rewrite resultList_firstPerPair. }
  split; [|split; [|done]].
  - rewrite Hcs. apply sortBy_sorted_rel.
    + apply candidateLeb_le.
    + intros a b. destruct (Qlt_le_dec (score a) (score b)); [right|left]; lra.
    + intros a b c ? ?. lra.
  - rewrite Hcs, sortBy_Permutation, <- list_fmap_compose.
    apply (firstPerPair_NoDup []).
Qed.

End RankedList.

(** *** The raw fallback and the phrase scenario *)

Lemma listRequests_elem baseScore consumedLen type penaltyStep from entries q :
  q ∈ listRequests baseScore consumedLen type penaltyStep from entries →
  req_baseScore q = baseScore ∧ req_consumedLen q = consumedLen ∧
  req_type q = type ∧ req_value q ∈ entries ∧
  ∃ idx, req_indexPenalty q = (inject_Z (Z.of_nat idx) * penaltyStep)%Q.
Proof.
  revert from. induction entries as [|h entries IH]; intros from; simpl.
  - by intros ?%elem_of_nil.
  - intros [->|H]%elem_of_cons; simpl.
    + repeat split; [apply list_elem_of_here|by exists from].
    + destruct (IH _ H) as (? & ? & ? & ? & ?).
      repeat split; try done. by apply list_elem_of_further.
Qed.

Lemma rawLetter_first_listed k c :
  first_listed_letter k c → c ≠ [] → rawLetter k = c.
Proof.
  intros [rest Hk] Hc. unfold rawLetter. rewrite Hk.
  destruct c; [done|]. done.
Qed.

Lemma rawLetters_first_listed pinyinKeys letters :
  Forall2 first_listed_letter pinyinKeys letters →
  Forall (λ c, c ≠ []) letters →
  rawLetter <$> pinyinKeys = letters.
Proof.
  induction 1 as [|k c pinyinKeys letters Hk _ IH]; [done|].
  intros [Hc Hall]%Forall_cons. rewrite fmap_cons. f_equal.
  - by apply rawLetter_first_listed.
  - by apply IH.
Qed.

Section Scenarios.

Variable toLowerCase : jsstring → jsstring.
Variable VALID_PINYINS : list jsstring.
Variable PINYIN_TO_HANZI : gmap jsstring (list jsstring).
Variable COMMON_PHRASES : gmap jsstring (list jsstring).

Local Arguments Nat.min : simpl never.

Local Abbreviation segmentations_ := (segmentations toLowerCase VALID_PINYINS).
Local Abbreviation candidates_ := (candidates PINYIN_TO_HANZI COMMON_PHRASES).

(** The fallback branch, whatever the key groups hold. *)
Lemma fallback_branch_candidate pinyinKeys usage mode :
  pinyinKeys ≠ [] →
  let raw := concat (rawLetter <$> pinyinKeys) in
  candidates_ pinyinKeys [] usage mode None =
  [ {| display := raw; value := raw;
       score := (0 + inject_Z (Z.of_nat (length raw)) * 5
                 + inject_Z (Z.of_nat (default 0%nat (usage !! raw))) * 10 - 0)%Q;
       consumedLen := length pinyinKeys; ctype := Raw |} ].
Proof.
  intros Hne raw. unfold candidates.
  destruct (length pinyinKeys =? 0) eqn:E.
  { apply Nat.eqb_eq, length_zero_iff_nil in E. done. }
  unfold resultList. cbn [length Nat.ltb Nat.leb Nat.eqb snd].
  fold raw. unfold addResult.
  rewrite bool_decide_eq_false_2 by apply not_elem_of_empty.
  by destruct mode.
Qed.

(** C5. For a non-empty buffer without any segmentation, the ranker without
    focus returns exactly one candidate: of type [Raw], with the
    concatenation of the first listed letters of the key groups as display
    and value, the whole buffer as consumed length, and the score of base 0
    (only the general bonuses for length and usage are added, whatever the
    mode). *)
Theorem raw_fallback (pinyinKeys : list KeyGroup) (letters : list jsstring)
    (usage : gmap jsstring nat) (mode : CandidateMode) :
  pinyinKeys ≠ [] →
  segmentations_ pinyinKeys = [] →
  Forall2 first_listed_letter pinyinKeys letters →
  Forall (λ c, c ≠ []) letters →
  candidates_ pinyinKeys (segmentations_ pinyinKeys) usage mode None =
  [ {| display := concat letters; value := concat letters;
       score := (0 + inject_Z (Z.of_nat (length (concat letters))) * 5
                 + inject_Z (Z.of_nat (default 0%nat (usage !! concat letters))) * 10
                 - 0)%Q;
       consumedLen := length pinyinKeys; ctype := Raw |} ].
Proof.
  intros Hne Hseg Hletters Hall. rewrite Hseg.
  rewrite fallback_branch_candidate by done.
  by rewrite (rawLetters_first_listed _ _ Hletters Hall).
Qed.

End Scenarios.

(** ** Composition State Machine *)

Lemma sliceNeg_app_r {A : Type} (s t : list A) :
  t ≠ [] → sliceNeg (s ++ t) (length t) = s.
Proof.
  intros Ht. unfold sliceNeg.
  destruct (length t =? 0) eqn:E.
  { apply Nat.eqb_eq, length_zero_iff_nil in E. done. }
  rewrite length_app, Nat.add_sub. by rewrite take_app_length.
Qed.

Lemma sliceNeg_snoc {A : Type} (s : list A) (x : A) : sliceNeg (s ++ [x]) 1 = s.
Proof. by apply (sliceNeg_app_r s [x]). Qed.

Lemma sliceNeg_length {A : Type} (s : list A) (n : nat) :
  length (sliceNeg s n) ≤ length s - n.
Proof.
  unfold sliceNeg. destruct (n =? 0); simpl; [lia|]. rewrite length_take. lia.
Qed.

Lemma sliceNeg_nil {A : Type} (n : nat) : sliceNeg ([] : list A) n = [].
Proof. unfold sliceNeg. destruct (n =? 0); [done|]. by rewrite take_nil. Qed.

Lemma last_snoc_inv {A : Type} (l : list A) (x : A) :
  last l = Some x → ∃ l', l = l' ++ [x].
Proof.
  destruct l as [|y l] using rev_ind; [done|].
  rewrite last_snoc. intros [= ->]. by eexists.
Qed.

Section StateMachineProofs.

Variable toLowerCase : jsstring → jsstring.
Variable VALID_PINYINS : list jsstring.
Variable PINYIN_TO_HANZI : gmap jsstring (list jsstring).
Variable COMMON_PHRASES : gmap jsstring (list jsstring).

Local Abbreviation dispatch_ :=
  (dispatch toLowerCase VALID_PINYINS PINYIN_TO_HANZI COMMON_PHRASES).
Local Abbreviation step_ :=
  (step toLowerCase VALID_PINYINS PINYIN_TO_HANZI COMMON_PHRASES).

(** C6 (as amended). A tap on a key of one letter that is not an action key
    calls [onKeyPress] with that letter and leaves the whole state unchanged,
    in [Idle] and in [Composing] alike: no candidate is picked first. *)
Theorem single_letter_tap (r : State) (data : KeyGroup) (c : jsstring) :
  type data ≠ action_key → chars data = Some [c] →
  dispatch_ (Tap data) r = (r, [KeyPress c]).
Proof.
  intros Hty Hc. unfold dispatch, handler, handleTap. rewrite Hc.
  by destruct (type data).
Qed.

(** *** What the handlers do to the composition *)

Lemma select_stage c r :
  drop (consumedLen c) (pinyinKeys r) ≠ [] →
  let r' := step_ (CandidateClick c) r in
  pinyinKeys r' = drop (consumedLen c) (pinyinKeys r) ∧
  stagedText r' = stagedText r ++ value c ∧
  selectionHistory r' =
    selectionHistory r ++
      [ {| text := value c; keys := take (consumedLen c) (pinyinKeys r) |} ] ∧
  focusedPinyinCandidate r' = None.
Proof.
  intros Hne. unfold step, dispatch, handler, handleCandidateSelect.
  destruct (length (drop (consumedLen c) (pinyinKeys r)) =? 0) eqn:E.
  { apply Nat.eqb_eq, length_zero_iff_nil in E. done. }
  unfold slice. rewrite Nat.sub_0_r, drop_0. by cbn.
Qed.

Lemma select_commit c r :
  drop (consumedLen c) (pinyinKeys r) = [] →
  let r' := step_ (CandidateClick c) r in
  pinyinKeys r' = [] ∧ stagedText r' = [] ∧ selectionHistory r' = [] ∧
  focusedPinyinCandidate r' = None.
Proof.
  intros He. unfold step, dispatch, handler, handleCandidateSelect.
  rewrite He. by cbn.
Qed.

Lemma delete_undo r history item :
  focusedPinyinCandidate r = None →
  selectionHistory r = history ++ [item] →
  let r' := step_ PanelDeleteClick r in
  pinyinKeys r' = keys item ++ pinyinKeys r ∧
  stagedText r' = sliceNeg (stagedText r) (length (text item)) ∧
  selectionHistory r' = history ∧
  focusedPinyinCandidate r' = None.
Proof.
  intros Hf Hh. unfold step, dispatch, handler, handlePanelDelete.
  rewrite Hf, Hh, last_snoc, length_app, sliceNeg_snoc.
  replace (0 <? length history + length [item]) with true
    by (symmetry; apply Nat.ltb_lt; simpl; lia).
  by cbn.
Qed.

(** *** Undo *)

Local Abbreviation selectAll_ :=
  (selectAll toLowerCase VALID_PINYINS PINYIN_TO_HANZI COMMON_PHRASES).
Local Abbreviation deleteTimes_ :=
  (deleteTimes toLowerCase VALID_PINYINS PINYIN_TO_HANZI COMMON_PHRASES).
Local Abbreviation no_commit_ :=
  (no_commit toLowerCase VALID_PINYINS PINYIN_TO_HANZI COMMON_PHRASES).

Lemma undo_selections cs r :
  no_commit_ cs r → Forall (λ c, value c ≠ []) cs →
  let r'' := deleteTimes_ (length cs) (selectAll_ cs r) in
  (pinyinKeys r'' = pinyinKeys r ∧ stagedText r'' = stagedText r ∧
   selectionHistory r'' = selectionHistory r) ∧
  (cs ≠ [] → focusedPinyinCandidate r'' = None).
Proof.
  revert r. induction cs as [|c cs IH]; intros r Hno Hval; [done|].
  destruct Hno as [Hne Hno]. apply Forall_cons in Hval as [Hc Hval].
  destruct (select_stage c r Hne) as (Hk1 & Hs1 & Hh1 & Hf1).
  specialize (IH _ Hno Hval). cbn zeta in IH.
  destruct IH as [(Hk & Hs & Hh) Hf].
  set (s := deleteTimes_ (length cs) (selectAll_ cs (step_ (CandidateClick c) r))) in *.
  change (deleteTimes_ (length (c :: cs)) (selectAll_ (c :: cs) r))
    with (step_ PanelDeleteClick s).
  assert (Hfs : focusedPinyinCandidate s = None).
  { destruct cs as [|c' cs]; [exact Hf1|]. by apply Hf. }
  rewrite Hh1 in Hh.
  destruct (delete_undo s _ _ Hfs Hh) as (Hk2 & Hs2 & Hh2 & Hf2).
  split; [|done]. rewrite Hk2, Hs2, Hh2, Hk, Hs, Hk1, Hs1. simpl.
  by rewrite take_drop, sliceNeg_app_r.
Qed.

(** X21. The undo law for selections of non-empty values: [N] selections that do
    not commit, then [N] presses of delete, give back [pinyinKeys],
    [stagedText] and [selectionHistory]. *)
Lemma undo_law_nonempty_values (cs : list Candidate) (r : State) :
  no_commit_ cs r → Forall (λ c, value c ≠ []) cs →
  let r'' := deleteTimes_ (length cs) (selectAll_ cs r) in
  pinyinKeys r'' = pinyinKeys r ∧ stagedText r'' = stagedText r ∧
  selectionHistory r'' = selectionHistory r.
Proof. intros Hno Hval. by apply undo_selections. Qed.

(** *** The invariant of the composition *)

Lemma composition_inv_clear s :
  composition_inv (clearComposition s).1.
Proof. split; cbn; [lia|done]. Qed.

Lemma composition_inv_select c r :
  composition_inv r → composition_inv (step_ (CandidateClick c) r).
Proof.
  intros [Hlen Hkeys].
  destruct (decide (drop (consumedLen c) (pinyinKeys r) = [])) as [He|Hne].
  - destruct (select_commit c r He) as (Hk & Hs & Hh & _).
    split; rewrite Hs; [simpl; lia|done].
  - destruct (select_stage c r Hne) as (Hk & Hs & Hh & _).
    split; rewrite ?Hs, ?Hh, ?Hk; [|done].
    rewrite fmap_app, sum_list_with_app, length_app. simpl. lia.
Qed.

Lemma composition_inv_delete r :
  composition_inv r → composition_inv (step_ PanelDeleteClick r).
Proof.
  intros [Hlen Hkeys].
  destruct (focusedPinyinCandidate r) as [f|] eqn:Hf.
  { unfold step, dispatch, handler, handlePanelDelete. rewrite Hf. by split. }
  destruct (last (selectionHistory r)) as [item|] eqn:Hlast.
  - apply last_snoc_inv in Hlast as [history Hh].
    destruct (delete_undo r history item Hf Hh) as (Hk & Hs & Hh' & _).
    rewrite Hh, fmap_app, sum_list_with_app in Hlen. simpl in Hlen.
    split; rewrite ?Hs, ?Hh', ?Hk.
    + pose proof (sliceNeg_length (stagedText r) (length (text item))). lia.
    + intros Hne. assert (stagedText r ≠ []) as Hst%Hkeys.
      { intros E. rewrite E, sliceNeg_nil in Hne. done. }
      intros [_ ?]%app_eq_nil. done.
  - apply last_None in Hlast. rewrite Hlast in Hlen. simpl in Hlen.
    assert (Hst : stagedText r = []) by (apply length_zero_iff_nil; lia).
    unfold step, dispatch, handler, handlePanelDelete.
    rewrite Hf, Hlast, Hst.
    destruct (0 <? length (pinyinKeys r)); cbn; split; cbn; rewrite ?Hst;
      try done; simpl; lia.
Qed.

Lemma composition_inv_tap data r :
  composition_inv r → composition_inv (step_ (Tap data) r).
Proof.
  intros Hinv. pose proof Hinv as [Hlen Hkeys].
  unfold step, dispatch, handler, handleTap.
  destruct (type data).
  1, 3:
    destruct (chars data) as [cs|]; [|done];
    destruct (length cs =? 1);
    [by destruct (cs !! 0)|];
    split; cbn; [done|]; intros _ [_ ?]%app_eq_nil; done.
  case_bool_decide; [by apply composition_inv_delete|].
  case_bool_decide.
  { destruct (_ && _).
    - destruct (_ !! 0) as [best|]; [by apply composition_inv_select|done].
    - destruct (0 <? length (stagedText r)); [|done].
      split; cbn; [lia|done]. }
  case_bool_decide.
  { destruct (_ || _); [|done]. apply composition_inv_clear. }
  by case_bool_decide.
Qed.

Lemma composition_inv_step e r :
  composition_inv r → composition_inv (step_ e r).
Proof.
  intros Hinv. destruct e as [data|data|c|c|seg|  | | |p|b].
  - by apply composition_inv_tap.
  - unfold step, dispatch, handler, handleLongPressStart.
    case_bool_decide; [apply composition_inv_clear|done].
  - unfold step, dispatch, handler, handleSlideCommit.
    destruct (_ || _); [|done].
    destruct (0 <? length (stagedText r)); apply composition_inv_clear.
  - by apply composition_inv_select.
  - unfold step, dispatch, handler, handleSegmentClick.
    by destruct (match focusedPinyinCandidate r with Some _ => _ | None => _ end).
  - by apply composition_inv_delete.
  - done.
  - apply composition_inv_clear.
  - done.
  - done.
Qed.

Lemma composition_inv_reachable s :
  reachable toLowerCase VALID_PINYINS PINYIN_TO_HANZI COMMON_PHRASES initialState s →
  composition_inv s.
Proof.
  induction 1 as [|e r _ IH].
  - split; simpl; [lia|done].
  - by apply composition_inv_step.
Qed.

(** C9. In every state reachable from the initial ([Idle]) state through the
    handlers of the component (taps on letter, punctuation, backspace, space
    and enter keys, candidate and syllable clicks, the delete button, long
    press, slide commit, mode toggle, close), [stagedText] is non-empty only
    while [pinyinKeys] is non-empty. *)
Theorem staged_only_while_pending (s : State) :
  reachable toLowerCase VALID_PINYINS PINYIN_TO_HANZI COMMON_PHRASES initialState s →
  stagedText s ≠ [] → pinyinKeys s ≠ [].
Proof. intros Hs. by apply composition_inv_reachable. Qed.

End StateMachineProofs.

(** * Concrete instances *)

Lemma codeUnitCompare_total a b :
  (codeUnitCompare a b ≤ 0)%Z ∨ (codeUnitCompare b a ≤ 0)%Z.
Proof.
  revert b. induction a as [|x a IH]; intros [|y b]; simpl; try lia.
  destruct (N.ltb_spec x y), (N.ltb_spec y x); try lia. apply IH.
Qed.

Lemma codeUnitCompare_trans a b c :
  (codeUnitCompare a b ≤ 0)%Z → (codeUnitCompare b c ≤ 0)%Z →
  (codeUnitCompare a c ≤ 0)%Z.
Proof.
  revert b c. induction a as [|x a IH]; intros [|y b] [|z c]; simpl; try lia.
  destruct (N.ltb_spec x y), (N.ltb_spec y x), (N.ltb_spec y z),
    (N.ltb_spec z y), (N.ltb_spec x z), (N.ltb_spec z x); try lia.
  apply IH.
Qed.

(** ** The phrase scenario *)

Example phrase_segmentations :
  segmentations asciiLower phraseValid phraseBuffer
  = [[ {| str := js "pu"; len := 2 |}; {| str := js "rui"; len := 3 |} ]].
Proof. vm_compute. reflexivity. Qed.

Example phrase_candidates :
  candidates phraseHanzi phrasePhrases phraseBuffer
             (segmentations asciiLower phraseValid phraseBuffer) ∅ WordMode None
  = [ {| display := puRui; value := puRui;
         score := (150 + 50 + 2 * 5 + 0 * 10 - 0 * 0.1)%Q;
         consumedLen := 5; ctype := Phrase |};
      {| display := hanzi_pu3; value := hanzi_pu3;
         score := (50 + 1 * 5 + 0 * 10 - 0 * 0.5)%Q;
         consumedLen := 2; ctype := Char |};
      {| display := hanzi_pu1; value := hanzi_pu1;
         score := (50 + 1 * 5 + 0 * 10 - 1 * 0.5)%Q;
         consumedLen := 2; ctype := Char |} ].
Proof. vm_compute. reflexivity. Qed.

(** In character mode the single characters come before the phrase. *)
Example phrase_candidates_char_mode :
  value <$> candidates phraseHanzi phrasePhrases phraseBuffer
              (segmentations asciiLower phraseValid phraseBuffer) ∅ CharMode None
  = [hanzi_pu3; hanzi_pu1; puRui].
Proof. vm_compute. reflexivity. Qed.

Lemma segmentations_exact_witness :
  [ {| str := js "pu"; len := 2 |}; {| str := js "rui"; len := 3 |} ]
    ∈ segmentations asciiLower phraseValid phraseBuffer ↔
  full_decomposition asciiLower phraseValid phraseBuffer
    [ {| str := js "pu"; len := 2 |}; {| str := js "rui"; len := 3 |} ] ∧
  Forall (λ s, str s ≠ [])
    [ {| str := js "pu"; len := 2 |}; {| str := js "rui"; len := 3 |} ].
Proof.
  apply (segmentations_exact asciiLower phraseValid phraseBuffer). discriminate.
Defined.

(** C1, counterexample: the empty decomposition is a full-length
    decomposition of the empty buffer, and [segmentations] does not return
    it. *)
Lemma segmentations_empty_buffer_incomplete :
  ¬ (∀ d, d ∈ segmentations asciiLower phraseValid [] ↔
          full_decomposition asciiLower phraseValid [] d).
Proof.
  intros H. destruct (H []) as [_ Hin].
  assert (Hd : full_decomposition asciiLower phraseValid [] []) by (by split).
  apply Hin in Hd. vm_compute in Hd. by apply elem_of_nil in Hd.
Qed.

(** C2, counterexample: for the empty buffer the result is not the
    one-element set that holds the empty decomposition. *)
Lemma segmentations_empty_buffer_not_singleton :
  segmentations asciiLower phraseValid [] ≠ [[]].
Proof. vm_compute. discriminate. Qed.

(** C7, counterexample: in the phrase scenario no candidate holds the phrase
    with [consumedLen] 2; the phrase consumes the five key groups. *)
Lemma pu_rui_consumedLen_not_2 :
  ¬ phrase_as_specified
      (candidates phraseHanzi phrasePhrases phraseBuffer
         (segmentations asciiLower phraseValid phraseBuffer) ∅ WordMode None).
Proof.
  rewrite phrase_candidates. intros (c & Hc & Hv & Hl & _).
  repeat (apply elem_of_cons in Hc as [->|Hc]; [by simpl in *|]).
  by apply elem_of_nil in Hc.
Qed.

(** ** A punctuation key while composing *)

Lemma single_letter_tap_witness :
  dispatch asciiLower phraseValid phraseHanzi phrasePhrases (Tap keyComma) onePending
  = (onePending, [KeyPress (js ",")]).
Proof.
  apply (single_letter_tap asciiLower phraseValid phraseHanzi phrasePhrases
           onePending keyComma (js ",")).
  - discriminate.
  - reflexivity.
Defined.

Example onePending_has_candidates :
  value <$> candidatesOf asciiLower phraseValid phraseHanzi phrasePhrases
              (step asciiLower phraseValid phraseHanzi phrasePhrases
                    (Tap keyYUIOP) onePending)
  = [hanzi_pu3; hanzi_pu1].
Proof. vm_compute. reflexivity. Qed.

(** C6, counterexample: with a key pending (a composition is active), the
    tap on the comma key is emitted directly and the state is unchanged; no
    candidate is picked. *)
Lemma punctuation_emitted_while_composing :
  ¬ punctuation_as_specified
      (dispatch asciiLower phraseValid phraseHanzi phrasePhrases)
      onePending keyComma (js ",").
Proof.
  intros [_ H]. apply H.
  - left. vm_compute. discriminate.
  - vm_compute. reflexivity.
Qed.

(** C3, counterexample: the letters of a group are not case-folded, so the
    syllable [q] does not match a group that lists [Q] and [W]. *)
Lemma matchesGroups_upper_case_group :
  ¬ (matchesGroups asciiLower (js "q") [keyUpperQW] = true ↔
     matches_case_folded asciiLower (js "q") [keyUpperQW]).
Proof.
  intros [_ H].
  assert (Hspec : matches_case_folded asciiLower (js "q") [keyUpperQW]).
  { split; [done|]. intros [|i] c g Hc Hg; [|done].
    injection Hc as <-. injection Hg as <-.
    eexists. split; [reflexivity|]. vm_compute. apply list_elem_of_here. }
  apply H in Hspec. vm_compute in Hspec. discriminate Hspec.
Qed.

(** ** A buffer that no syllable matches *)

Lemma raw_fallback_witness :
  candidates phraseHanzi phrasePhrases [keyQWERT; keyQWERT]
             (segmentations asciiLower phraseValid [keyQWERT; keyQWERT])
             ∅ WordMode None
  = [ {| display := js "qq"; value := js "qq";
         score := (0 + inject_Z (Z.of_nat (length (js "qq"))) * 5
                   + inject_Z (Z.of_nat
                       (default 0%nat ((∅ : gmap jsstring nat) !! js "qq"))) * 10
                   - 0)%Q;
         consumedLen := 2; ctype := Raw |} ].
Proof.
  apply (raw_fallback asciiLower phraseValid phraseHanzi phrasePhrases
           [keyQWERT; keyQWERT] [js "q"; js "q"] ∅ WordMode).
  - discriminate.
  - vm_compute. reflexivity.
  - repeat constructor; by eexists.
  - repeat constructor; discriminate.
Defined.

(** ** Two syllables on the same keys *)

Example tie_candidates :
  candidates tieHanzi ∅ tieBuffer (segmentations asciiLower tieValid tieBuffer)
             ∅ WordMode None
  = [ {| display := hanzi_yu; value := hanzi_yu;
         score := (50 + 1 * 5 + 0 * 10 - 0 * 0.5)%Q;
         consumedLen := 2; ctype := Char |};
      {| display := hanzi_pu3; value := hanzi_pu3;
         score := (50 + 1 * 5 + 0 * 10 - 0 * 0.5)%Q;
         consumedLen := 2; ctype := Char |} ].
Proof. vm_compute. reflexivity. Qed.

(** C4, counterexample: two first hanzi of two syllables on the same keys
    get the same score, so the list is not strictly descending. *)
Lemma candidates_tie_not_strict :
  ¬ Sorted (λ a b, (score b < score a)%Q)
      (candidates tieHanzi ∅ tieBuffer (segmentations asciiLower tieValid tieBuffer)
                  ∅ WordMode None).
Proof.
  rewrite tie_candidates. intros H.
  apply Sorted_inv in H as [_ H]. apply HdRel_inv in H.
  simpl in H. by apply Qlt_irrefl in H.
Qed.

(** The row is in the order of the comparator, not of the dictionary, which
    lists [yu] before [pu]. *)
Example row_not_in_dictionary_order :
  availablePinyinSegments asciiLower codeUnitCompare tieValid tieBuffer
  = [ {| str := js "pu"; len := 2 |}; {| str := js "yu"; len := 2 |} ].
Proof. vm_compute. reflexivity. Qed.

Lemma availablePinyinSegments_sorted_witness :
  let row := availablePinyinSegments asciiLower codeUnitCompare tieValid tieBuffer in
  StronglySorted (row_order codeUnitCompare) row ∧
  (∀ s, s ∈ row ↔
        1 ≤ len s ≤ 6 `min` length tieBuffer ∧
        str s ∈ tieValid ∧ length (str s) = len s ∧
        matchesGroups asciiLower (str s) (take (len s) tieBuffer) = true) ∧
  ((∀ a b, a ∈ tieValid → b ∈ tieValid →
           (codeUnitCompare a b ≤ 0)%Z → (codeUnitCompare b a ≤ 0)%Z → a = b) →
   ∀ reordered, reordered ≡ₚ tieValid →
     availablePinyinSegments asciiLower codeUnitCompare reordered tieBuffer = row).
Proof.
  apply (availablePinyinSegments_sorted asciiLower codeUnitCompare tieValid).
  - apply codeUnitCompare_total.
  - apply codeUnitCompare_trans.
  - discriminate.
Defined.

(** ** A dictionary entry that is the empty string *)

Example sixTaps_candidates :
  candidatesOf asciiLower emptyEntryValid emptyEntryHanzi ∅ sixTaps
  = [candidate_yi; candidate_empty].
Proof. vm_compute. reflexivity. Qed.

Lemma afterFirstPick_reachable :
  reachable asciiLower emptyEntryValid emptyEntryHanzi ∅ initialState afterFirstPick.
Proof.
  unfold afterFirstPick, sixTaps, emptyEntryStep.
  repeat apply reachable_step. apply reachable_init.
Qed.

(** Why the undo law is stated for a dictionary that lists no empty string.
    With the entry [''] in the list of [yi]: after six taps and the pick of
    the first candidate, the text staged is that hanzi. The second candidate
    of the list has the empty string as value; picking it does not commit,
    and the one press of delete that undoes the pick gives back [pinyinKeys]
    and [selectionHistory] but leaves [stagedText] empty: [slice(0, -0)] is
    [slice(0, 0)]. *)
Example undo_loses_staged_text_on_empty_value :
  candidatesOf asciiLower emptyEntryValid emptyEntryHanzi ∅ afterFirstPick !! 1
    = Some candidate_empty ∧
  no_commit asciiLower emptyEntryValid emptyEntryHanzi ∅ [candidate_empty] afterFirstPick ∧
  stagedText afterFirstPick = hanzi_yi ∧
  let r'' := deleteTimes asciiLower emptyEntryValid emptyEntryHanzi ∅ 1
               (selectAll asciiLower emptyEntryValid emptyEntryHanzi ∅
                          [candidate_empty] afterFirstPick) in
  stagedText r'' = [] ∧
  pinyinKeys r'' = pinyinKeys afterFirstPick ∧
  selectionHistory r'' = selectionHistory afterFirstPick.
Proof.
  split; [vm_compute; reflexivity|].
  split; [split; [vm_compute; discriminate|exact I]|].
  split; [vm_compute; reflexivity|].
  repeat split; vm_compute; reflexivity.
Qed.

Lemma staged_only_while_pending_witness : pinyinKeys afterFirstPick ≠ [].
Proof.
  apply (staged_only_while_pending asciiLower emptyEntryValid emptyEntryHanzi ∅).
  - unfold afterFirstPick, sixTaps, emptyEntryStep.
    repeat apply reachable_step. apply reachable_init.
  - vm_compute. discriminate.
Defined.

(** * Further properties of the engine *)

(** ** Segmentations and the syllable row *)

Section RowAndSegmentations.

Variable toLowerCase : jsstring → jsstring.
Variable localeCompare : jsstring → jsstring → Z.
Variable VALID_PINYINS : list jsstring.
Variable PINYIN_TO_HANZI : gmap jsstring (list jsstring).
Variable COMMON_PHRASES : gmap jsstring (list jsstring).

Local Arguments Nat.min : simpl never.

Local Abbreviation segs_of := (segmentations toLowerCase VALID_PINYINS).

Lemma decomposes_size buffer d :
  decomposes toLowerCase VALID_PINYINS buffer d →
  length d ≤ length buffer ≤ 6 * length d.
Proof.
  revert buffer. induction d as [|s d IH]; intros buffer; simpl.
  - intros ->. simpl. lia.
  - intros ([Hlo Hhi] & _ & _ & _ & Hd). apply IH in Hd.
    rewrite length_drop in Hd. lia.
Qed.

Lemma decomposes_letters buffer d k :
  decomposes toLowerCase VALID_PINYINS buffer d → k ∈ buffer →
  ∃ allowed c, chars k = Some allowed ∧ c ∈ allowed.
Proof.
  revert buffer. induction d as [|s d IH]; intros buffer; simpl.
  - intros ->. by intros ?%elem_of_nil.
  - intros (_ & _ & _ & Hm & Hd) Hk.
    rewrite <- (take_drop (len s) buffer) in Hk.
    apply elem_of_app in Hk as [Hk|Hk]; [|by eapply IH].
    apply matchesGroups_true in Hm as [Hlen Hm].
    apply list_elem_of_lookup in Hk as [i Hi].
    destruct (lookup_lt_is_Some_2 (str s) i) as [c Hc].
    { rewrite Hlen. by eapply lookup_lt_Some. }
    destruct (Hm i c k Hc Hi) as (allowed & Ha & Hin). eauto.
Qed.

Local Abbreviation row_of :=
  (availablePinyinSegments toLowerCase localeCompare VALID_PINYINS).

(** X1. The syllable row holds exactly the segments whose syllable is in the
    dictionary and matches the first one to six keys of the buffer, with
    [len] the length of the syllable, whether or not the rest of the buffer
    can be decomposed. *)
Theorem syllable_row_exact (pinyinKeys : list KeyGroup) (s : Segment) :
  s ∈ row_of pinyinKeys ↔
  1 ≤ len s ≤ 6 `min` length pinyinKeys ∧
  str s ∈ VALID_PINYINS ∧ length (str s) = len s ∧
  matchesGroups toLowerCase (str s) (take (len s) pinyinKeys) = true.
Proof. apply elem_of_availablePinyinSegments. Qed.

(** X2. The first segment of every segmentation is offered in the syllable
    row. *)
Theorem first_segment_in_row (pinyinKeys : list KeyGroup) (s : Segment)
    (d : list Segment) :
  s :: d ∈ segs_of pinyinKeys → s ∈ row_of pinyinKeys.
Proof.
  intros Hd.
  assert (Hne : pinyinKeys ≠ []).
  { intros ->. by apply elem_of_nil in Hd. }
  apply segmentations_decomposes in Hd; [|done].
  destruct Hd as (Hlen & Hstr & Hin & Hm & _).
  by apply elem_of_availablePinyinSegments.
Qed.

(** X3. A segmentation has at most as many segments as the buffer has keys,
    and at least a sixth of that number. *)
Theorem segmentation_size (pinyinKeys : list KeyGroup) (d : list Segment) :
  d ∈ segs_of pinyinKeys →
  length d ≤ length pinyinKeys ≤ 6 * length d.
Proof.
  intros Hd.
  assert (Hne : pinyinKeys ≠ []).
  { intros ->. by apply elem_of_nil in Hd. }
  apply segmentations_decomposes in Hd; [|done].
  by eapply decomposes_size.
Qed.

(** X4. A key group without letters ([chars] missing or empty) anywhere in
    the buffer leaves it without segmentation, and the ranker without focus
    then returns the one raw candidate, where such a group reads [?]. *)
Theorem letterless_key_falls_back (pinyinKeys : list KeyGroup) (k : KeyGroup)
    (usage : gmap jsstring nat) (mode : CandidateMode) :
  k ∈ pinyinKeys → chars k = None ∨ chars k = Some [] →
  segs_of pinyinKeys = [] ∧
  rawLetter k = js "?" ∧
  let raw := concat (rawLetter <$> pinyinKeys) in
  candidates PINYIN_TO_HANZI COMMON_PHRASES pinyinKeys (segs_of pinyinKeys)
             usage mode None =
  [ {| display := raw; value := raw;
       score := (0 + inject_Z (Z.of_nat (length raw)) * 5
                 + inject_Z (Z.of_nat (default 0%nat (usage !! raw))) * 10 - 0)%Q;
       consumedLen := length pinyinKeys; ctype := Raw |} ].
Proof.
  intros Hk Hchars.
  assert (Hne : pinyinKeys ≠ []).
  { intros ->. by apply elem_of_nil in Hk. }
  assert (Hseg : segs_of pinyinKeys = []).
  { destruct (segs_of pinyinKeys) as [|d l] eqn:E; [done|]. exfalso.
    assert (Hd : d ∈ segs_of pinyinKeys) by (rewrite E; apply list_elem_of_here).
    apply segmentations_decomposes in Hd; [|done].
    destruct (decomposes_letters _ _ k Hd Hk) as (allowed & c & Ha & Hc).
    destruct Hchars as [Hn|Hn]; rewrite Hn in Ha; [done|].
    injection Ha as <-. by apply elem_of_nil in Hc. }
  split; [done|]. split.
  { unfold rawLetter. by destruct Hchars as [-> | ->]. }
  rewrite Hseg. by apply fallback_branch_candidate.
Qed.

End RowAndSegmentations.

Lemma first_segment_in_row_witness :
  {| str := js "pu"; len := 2 |}
    ∈ availablePinyinSegments asciiLower codeUnitCompare phraseValid phraseBuffer.
Proof.
  apply (first_segment_in_row asciiLower codeUnitCompare phraseValid phraseBuffer
           _ [ {| str := js "rui"; len := 3 |} ]).
  vm_compute. apply list_elem_of_here.
Defined.

Lemma segmentation_size_witness :
  length [ {| str := js "pu"; len := 2 |}; {| str := js "rui"; len := 3 |} ]
    ≤ length phraseBuffer
    ≤ 6 * length [ {| str := js "pu"; len := 2 |}; {| str := js "rui"; len := 3 |} ].
Proof.
  apply (segmentation_size asciiLower phraseValid phraseBuffer).
  vm_compute. apply list_elem_of_here.
Defined.

Lemma letterless_key_falls_back_witness :
  segmentations asciiLower phraseValid [keyYUIOP; keyNoLetters] = [] ∧
  rawLetter keyNoLetters = js "?" ∧
  let raw := concat (rawLetter <$> [keyYUIOP; keyNoLetters]) in
  candidates phraseHanzi phrasePhrases [keyYUIOP; keyNoLetters]
             (segmentations asciiLower phraseValid [keyYUIOP; keyNoLetters])
             ∅ WordMode None =
  [ {| display := raw; value := raw;
       score := (0 + inject_Z (Z.of_nat (length raw)) * 5
                 + inject_Z (Z.of_nat
                     (default 0%nat ((∅ : gmap jsstring nat) !! raw))) * 10 - 0)%Q;
       consumedLen := length [keyYUIOP; keyNoLetters]; ctype := Raw |} ].
Proof.
  apply (letterless_key_falls_back asciiLower phraseValid phraseHanzi phrasePhrases
           [keyYUIOP; keyNoLetters] keyNoLetters ∅ WordMode).
  - apply list_elem_of_further, list_elem_of_here.
  - right. reflexivity.
Defined.

(** ** The candidate list *)

Lemma firstPerPair_covers seen qs q :
  q ∈ qs → pairOf q ∉ seen →
  ∃ q', q' ∈ firstPerPair seen qs ∧ pairOf q' = pairOf q.
Proof.
  revert seen. induction qs as [|q0 qs IH]; intros seen Hq Hs; simpl.
  - by apply elem_of_nil in Hq.
  - apply elem_of_cons in Hq as [->|Hq].
    + rewrite bool_decide_eq_false_2 by done.
      exists q0. split; [apply list_elem_of_here|done].
    + case_bool_decide as Hq0; [by apply IH|].
      destruct (decide (pairOf q = pairOf q0)) as [E|Hne].
      * exists q0. split; [apply list_elem_of_here|done].
      * destruct (IH (pairOf q0 :: seen) Hq) as (q' & Hq' & E).
        { apply not_elem_of_cons. by split. }
        exists q'. split; [by apply list_elem_of_further|done].
Qed.

Lemma sum_list_take_le {A : Type} (f : A → nat) (l : list A) (j : nat) :
  sum_list (f <$> take j l) ≤ sum_list (f <$> l).
Proof.
  rewrite <- (take_drop j l) at 2. rewrite fmap_app, sum_list_with_app. lia.
Qed.

(** X5. The key [`${value}-${consumedLen}`] of the set [processed]
    determines the pair: two calls of [addResult] have the same key exactly
    when they have the same value and the same consumed length, also when
    the value itself holds hyphens or digits. *)
Theorem processed_key_determines_pair (v v' : jsstring) (n n' : nat) :
  resultKey v n = resultKey v' n' ↔ v = v' ∧ n = n'.
Proof.
  split; [apply resultKey_inj|]. by intros [-> ->].
Qed.

Section CandidateLists.

Variable toLowerCase : jsstring → jsstring.
Variable VALID_PINYINS : list jsstring.
Variable PINYIN_TO_HANZI : gmap jsstring (list jsstring).
Variable COMMON_PHRASES : gmap jsstring (list jsstring).

Local Arguments Nat.min : simpl never.

Local Abbreviation segs_of := (segmentations toLowerCase VALID_PINYINS).
Local Abbreviation cands := (candidates PINYIN_TO_HANZI COMMON_PHRASES).

Lemma elem_of_candidates pinyinKeys segs usage mode focused c :
  c ∈ cands pinyinKeys segs usage mode focused ↔
  pinyinKeys ≠ [] ∧
  ∃ q, c = scored usage mode q ∧
       q ∈ firstPerPair []
             (requests PINYIN_TO_HANZI COMMON_PHRASES pinyinKeys segs focused).
Proof.
  unfold candidates. destruct (length pinyinKeys =? 0) eqn:E.
  - apply Nat.eqb_eq, length_zero_iff_nil in E. rewrite elem_of_nil. tauto.
  - rewrite elem_of_sortBy, resultList_firstPerPair, list_elem_of_fmap.
    assert (pinyinKeys ≠ []) by (by intros ->). tauto.
Qed.

(** X6. With a focused syllable, every candidate is a character of the
    list of that syllable in [PINYIN_TO_HANZI], of type [Char], consuming
    the keys of the focused segment; no phrase and no raw candidate is
    offered. For a non-empty buffer every entry of that list is offered, and
    a syllable without a list gives no candidate. *)
Theorem focused_candidates (pinyinKeys : list KeyGroup) (segs : list (list Segment))
    (usage : gmap jsstring nat) (mode : CandidateMode) (f : Segment) :
  let cs := cands pinyinKeys segs usage mode (Some f) in
  let hanzis := default [] (PINYIN_TO_HANZI !! str f) in
  (∀ c, c ∈ cs → ctype c = Char ∧ consumedLen c = len f ∧
                 display c = value c ∧ value c ∈ hanzis) ∧
  (pinyinKeys ≠ [] → ∀ h, h ∈ hanzis → ∃ c, c ∈ cs ∧ value c = h).
Proof.
  intros cs hanzis. split.
  - intros c (_ & q & -> & Hq%firstPerPair_elem)%elem_of_candidates.
    unfold requests in Hq. unfold hanzis.
    destruct (PINYIN_TO_HANZI !! str f) as [l|]; [|by apply elem_of_nil in Hq].
    pose proof Hq as Hd.
    apply listRequests_elem in Hq as (_ & ? & ? & ? & _).
    simpl. repeat split; try done.
    clear -Hd. revert Hd. generalize 0. induction l as [|h l IH]; intros from; simpl.
    + by intros ?%elem_of_nil.
    + intros [->|?]%elem_of_cons; [done|by eapply IH].
  - intros Hne h Hh. unfold hanzis in Hh.
    destruct (PINYIN_TO_HANZI !! str f) as [l|] eqn:El; [|by apply elem_of_nil in Hh].
    simpl in Hh.
    assert (Hq : ∃ q, q ∈ listRequests 100 (len f) Char 0.1 0 l ∧ req_value q = h).
    { clear -Hh. generalize 0. induction l as [|h0 l IH]; intros from; simpl.
      - by apply elem_of_nil in Hh.
      - apply elem_of_cons in Hh as [->|Hh].
        + eexists. split; [apply list_elem_of_here|done].
        + destruct (IH Hh (S from)) as (q & Hq & E).
          exists q. split; [by apply list_elem_of_further|done]. }
    destruct Hq as (q & Hq & Eq).
    destruct (firstPerPair_covers [] _ q Hq) as (q' & Hq' & Ep);
      [apply not_elem_of_nil|].
    exists (scored usage mode q'). split.
    + apply elem_of_candidates. split; [done|]. exists q'. split; [done|].
      unfold requests. by rewrite El.
    + simpl. unfold pairOf in Ep. injection Ep as -> _. done.
Qed.

Lemma listRequests_display baseScore consumedLen type penaltyStep from entries q :
  q ∈ listRequests baseScore consumedLen type penaltyStep from entries →
  req_display q = req_value q.
Proof.
  revert from. induction entries as [|h entries IH]; intros from; simpl.
  - by intros ?%elem_of_nil.
  - intros [->|H]%elem_of_cons; [done|by eapply IH].
Qed.

Lemma decomposes_lens buffer d :
  decomposes toLowerCase VALID_PINYINS buffer d →
  sum_list (len <$> d) = length buffer ∧ Forall (λ s, 1 ≤ len s) d.
Proof.
  revert buffer. induction d as [|s d IH]; intros buffer; simpl.
  - by intros ->.
  - intros ([Hlo Hhi] & _ & _ & _ & Hd). apply IH in Hd as [Hsum Hall].
    rewrite length_drop in Hsum.
    change (list_fmap Segment nat len d) with (len <$> d).
    split; [lia|]. by constructor.
Qed.

Lemma phraseTrace_inv path n :
  n ≤ length path →
  ∃ p qs,
    foldl (phraseTraceStep COMMON_PHRASES path) ([], 0, []) (seq 0 n)
      = (p, sum_list (len <$> take n path), qs) ∧
    ∀ q, q ∈ qs →
      req_type q = Phrase ∧ req_display q = req_value q ∧
      ∃ j, 1 ≤ j ≤ n ∧ req_consumedLen q = sum_list (len <$> take j path).
Proof.
  induction n as [|n IH]; intros Hn.
  - exists [], []. split; [done|]. by intros q ?%elem_of_nil.
  - destruct IH as (p & qs & E & Hqs); [lia|].
    destruct (lookup_lt_is_Some_2 path n) as [s Hs]; [lia|].
    rewrite seq_S, foldl_app, E. cbn [foldl phraseTraceStep Nat.add]. rewrite Hs.
    eexists _, _. split.
    + f_equal. f_equal. rewrite (take_S_r _ _ _ Hs), fmap_app, sum_list_with_app.
      simpl. lia.
    + intros q [Hq|Hq]%elem_of_app.
      * destruct (Hqs q Hq) as (? & ? & j & ? & ?).
        repeat split; try done. exists j. split; [lia|done].
      * destruct (COMMON_PHRASES !! _) as [phrases|]; [|by apply elem_of_nil in Hq].
        pose proof (listRequests_display _ _ _ _ _ _ _ Hq) as Hd.
        apply listRequests_elem in Hq as (_ & Hc & Ht & _).
        repeat split; try done. exists (S n). split; [lia|].
        rewrite Hc, (take_S_r _ _ _ Hs), fmap_app, sum_list_with_app. simpl. lia.
Qed.

Lemma pathRequests_bounds buffer path q :
  decomposes toLowerCase VALID_PINYINS buffer path →
  q ∈ pathRequests PINYIN_TO_HANZI COMMON_PHRASES path →
  req_display q = req_value q ∧ 1 ≤ req_consumedLen q ≤ length buffer ∧
  req_type q ≠ Raw.
Proof.
  intros [Hsum Hall]%decomposes_lens. unfold pathRequests.
  destruct path as [|s path']; [by intros ?%elem_of_nil|].
  set (path := s :: path') in *. cbn [length Nat.eqb].
  apply Forall_cons in Hall as [Hs _].
  destruct (phraseTrace_inv path (length path `min` 4)) as (p & qs & E & Hqs); [lia|].
  rewrite E. cbn [snd]. intros [Hq|Hq]%elem_of_app.
  - destruct (Hqs q Hq) as (Ht & Hd & j & [Hj _] & Hc).
    split; [done|]. split; [|by rewrite Ht].
    rewrite Hc. pose proof (sum_list_take_le len path j).
    assert (1 ≤ sum_list (len <$> take j path)); [|lia].
    destruct j as [|j]; [lia|]. unfold path. simpl. lia.
  - cbn [lookup list_lookup path] in Hq.
    destruct (PINYIN_TO_HANZI !! str s) as [hanzis|]; [|by apply elem_of_nil in Hq].
    pose proof (listRequests_display _ _ _ _ _ _ _ Hq) as Hd.
    apply listRequests_elem in Hq as (_ & Hc & Ht & _).
    split; [done|]. split; [|by rewrite Ht].
    rewrite Hc. unfold path in Hsum. simpl in Hsum. lia.
Qed.

(** X7. Without focus, over the segmentations of the buffer, every candidate
    has its value as display and consumes at least one key and at most the
    whole buffer, so that picking a listed candidate never reaches past the
    pending keys; and a raw candidate is listed exactly when the buffer is
    not empty and has no segmentation: then there is one, and with a
    segmentation there is none. *)
Theorem default_candidates_within_buffer (pinyinKeys : list KeyGroup)
    (usage : gmap jsstring nat) (mode : CandidateMode) :
  let cs := cands pinyinKeys (segs_of pinyinKeys) usage mode None in
  (∀ c, c ∈ cs →
        display c = value c ∧ 1 ≤ consumedLen c ≤ length pinyinKeys ∧
        (ctype c = Raw ↔ segs_of pinyinKeys = [])) ∧
  ((∃ c, c ∈ cs ∧ ctype c = Raw) ↔ pinyinKeys ≠ [] ∧ segs_of pinyinKeys = []).
Proof.
  intros cs.
  assert (Hall : ∀ c, c ∈ cs →
            display c = value c ∧ 1 ≤ consumedLen c ≤ length pinyinKeys ∧
            (ctype c = Raw ↔ segs_of pinyinKeys = [])).
  { intros c (Hne & q & -> & Hq%firstPerPair_elem)%elem_of_candidates.
    unfold requests in Hq. simpl.
    destruct (segs_of pinyinKeys) as [|d l] eqn:E.
    - cbn [length Nat.ltb Nat.leb] in Hq. apply list_elem_of_singleton in Hq as ->.
      simpl. split; [done|]. split; [|done].
      destruct pinyinKeys; [done|]. simpl. lia.
    - cbn [length Nat.ltb Nat.leb] in Hq.
      apply list_elem_of_In, in_concat in Hq as (qs & Hqs%list_elem_of_In & Hq%list_elem_of_In).
      apply list_elem_of_fmap in Hqs as (path & -> & Hpath).
      rewrite <- E in Hpath. apply segmentations_decomposes in Hpath; [|done].
      destruct (pathRequests_bounds _ _ _ Hpath Hq) as (? & ? & ?).
      split; [done|]. split; [done|]. split; [done|discriminate]. }
  split; [exact Hall|]. split.
  - intros (c & Hc & Hraw). split.
    + by apply elem_of_candidates in Hc as [? _].
    + by apply (Hall c Hc).
  - intros [Hne Hsegs]. unfold cs. rewrite Hsegs.
    pose proof (fallback_branch_candidate PINYIN_TO_HANZI COMMON_PHRASES
                  pinyinKeys usage mode Hne) as E.
    cbv zeta in E. rewrite E.
    eexists. split; [apply list_elem_of_here|done].
Qed.

End CandidateLists.

(** ** The composition over several events *)

Section Compositions.

Variable toLowerCase : jsstring → jsstring.
Variable VALID_PINYINS : list jsstring.
Variable PINYIN_TO_HANZI : gmap jsstring (list jsstring).
Variable COMMON_PHRASES : gmap jsstring (list jsstring).

Local Abbreviation dispatch_ :=
  (dispatch toLowerCase VALID_PINYINS PINYIN_TO_HANZI COMMON_PHRASES).
Local Abbreviation step_ :=
  (step toLowerCase VALID_PINYINS PINYIN_TO_HANZI COMMON_PHRASES).
Local Abbreviation selectAll_ :=
  (selectAll toLowerCase VALID_PINYINS PINYIN_TO_HANZI COMMON_PHRASES).
Local Abbreviation no_commit_ :=
  (no_commit toLowerCase VALID_PINYINS PINYIN_TO_HANZI COMMON_PHRASES).
Local Abbreviation dispatchAll_ :=
  (dispatchAll toLowerCase VALID_PINYINS PINYIN_TO_HANZI COMMON_PHRASES).

Lemma select_stage_dispatch c r :
  drop (consumedLen c) (pinyinKeys r) ≠ [] →
  dispatch_ (CandidateClick c) r = (step_ (CandidateClick c) r, []).
Proof.
  intros Hne. unfold step, dispatch, handler, handleCandidateSelect.
  destruct (length (drop (consumedLen c) (pinyinKeys r)) =? 0) eqn:E.
  { apply Nat.eqb_eq, length_zero_iff_nil in E. done. }
  by cbn.
Qed.

Lemma select_commit_dispatch c r :
  drop (consumedLen c) (pinyinKeys r) = [] →
  (dispatch_ (CandidateClick c) r).2 = [KeyPress (stagedText r ++ value c)].
Proof.
  intros He. unfold dispatch, handler, handleCandidateSelect.
  rewrite He. by cbn.
Qed.

Lemma select_usage c r :
  usageHistory (step_ (CandidateClick c) r)
  = <[value c := S (default 0%nat (usageHistory r !! value c))]> (usageHistory r) ∧
  candidateMode (step_ (CandidateClick c) r) = candidateMode r.
Proof.
  unfold step, dispatch, handler, handleCandidateSelect.
  by destruct (length (drop (consumedLen c) (pinyinKeys r)) =? 0); cbn.
Qed.

(** X8. The text emitted when a composition commits is the text staged
    before, followed by the values of all the candidates picked, in order:
    the picks that leave keys pending emit nothing, and the pick that
    empties the buffer emits everything in one call and resets the
    composition. *)
Theorem commit_emits_all_selections (cs : list Candidate) (c : Candidate) (r : State) :
  no_commit_ cs r →
  drop (consumedLen c) (pinyinKeys (selectAll_ cs r)) = [] →
  let res := dispatchAll_ (CandidateClick <$> cs ++ [c]) r in
  res.2 = [KeyPress (stagedText r ++ concat (value <$> cs) ++ value c)] ∧
  pinyinKeys res.1 = [] ∧ stagedText res.1 = [] ∧ selectionHistory res.1 = [].
Proof.
  revert r. induction cs as [|c0 cs IH]; intros r Hno He.
  - cbn in He. cbn [app fmap list_fmap dispatchAll].
    destruct (select_commit toLowerCase VALID_PINYINS PINYIN_TO_HANZI COMMON_PHRASES
                c r He) as (Hk & Hs & Hh & _).
    pose proof (select_commit_dispatch c r He) as Ho.
    unfold step in Hk, Hs, Hh.
    destruct (dispatch_ (CandidateClick c) r) as [r1 o1]. simpl in *.
    by rewrite Ho, app_nil_r.
  - destruct Hno as [Hne Hno].
    destruct (select_stage toLowerCase VALID_PINYINS PINYIN_TO_HANZI COMMON_PHRASES
                c0 r Hne) as (_ & Hs & _).
    specialize (IH _ Hno He). cbn zeta in IH. destruct IH as (Ho & Hrest).
    cbn [app fmap list_fmap dispatchAll].
    rewrite (select_stage_dispatch c0 r Hne).
    change (list_fmap Candidate Event CandidateClick (cs ++ [c]))
      with (CandidateClick <$> cs ++ [c]).
    destruct (dispatchAll_ _ _) as [r2 o2]. simpl in *.
    split; [|done]. rewrite Ho, Hs. by rewrite <- !app_assoc.
Qed.

(** X9. Every pick is counted exactly once, whether it commits or not:
    after the picks [cs], the usage count of a value is its count before
    plus the number of picks of that value. *)
Theorem usage_counts_selections (cs : list Candidate) (r : State) (v : jsstring) :
  default 0%nat (usageHistory (selectAll_ cs r) !! v)
  = default 0%nat (usageHistory r !! v) + length (filter (λ c, value c = v) cs).
Proof.
  revert r. induction cs as [|c cs IH]; intros r; [simpl; lia|].
  change (selectAll_ (c :: cs) r) with (selectAll_ cs (step_ (CandidateClick c) r)).
  rewrite IH. destruct (select_usage c r) as [-> _].
  rewrite filter_cons, lookup_insert.
  repeat case_decide; try done; subst; simpl; lia.
Qed.

End Compositions.

Lemma commit_emits_all_selections_witness :
  let res := dispatchAll asciiLower emptyEntryValid emptyEntryHanzi ∅
               (CandidateClick <$> [candidate_yi; candidate_yi] ++ [candidate_yi])
               sixTaps in
  res.2 = [KeyPress (stagedText sixTaps
                       ++ concat (value <$> [candidate_yi; candidate_yi])
                       ++ value candidate_yi)] ∧
  pinyinKeys res.1 = [] ∧ stagedText res.1 = [] ∧ selectionHistory res.1 = [].
Proof.
  apply (commit_emits_all_selections asciiLower emptyEntryValid emptyEntryHanzi ∅
           [candidate_yi; candidate_yi] candidate_yi sixTaps).
  - split; [vm_compute; discriminate|]. split; [vm_compute; discriminate|exact I].
  - vm_compute. reflexivity.
Defined.

Lemma undo_law_nonempty_values_witness :
  let r'' := deleteTimes asciiLower emptyEntryValid emptyEntryHanzi ∅
               (length [candidate_yi; candidate_yi])
               (selectAll asciiLower emptyEntryValid emptyEntryHanzi ∅
                          [candidate_yi; candidate_yi] sixTaps) in
  pinyinKeys r'' = pinyinKeys sixTaps ∧ stagedText r'' = stagedText sixTaps ∧
  selectionHistory r'' = selectionHistory sixTaps.
Proof.
  apply (undo_law_nonempty_values asciiLower emptyEntryValid emptyEntryHanzi ∅
           [candidate_yi; candidate_yi] sixTaps).
  - split; [vm_compute; discriminate|]. split; [vm_compute; discriminate|exact I].
  - repeat constructor; discriminate.
Defined.

(** ** What a single event can do *)

Section EventProperties.

Variable toLowerCase : jsstring → jsstring.
Variable VALID_PINYINS : list jsstring.
Variable PINYIN_TO_HANZI : gmap jsstring (list jsstring).
Variable COMMON_PHRASES : gmap jsstring (list jsstring).

Local Abbreviation dispatch_ :=
  (dispatch toLowerCase VALID_PINYINS PINYIN_TO_HANZI COMMON_PHRASES).
Local Abbreviation step_ :=
  (step toLowerCase VALID_PINYINS PINYIN_TO_HANZI COMMON_PHRASES).
Local Abbreviation dispatchAll_ :=
  (dispatchAll toLowerCase VALID_PINYINS PINYIN_TO_HANZI COMMON_PHRASES).

(** The result of an action that leaves the usage counts and the mode
    alone. *)
Let quiet (r : State) (res : State * list Output) : Prop :=
  usageHistory res.1 = usageHistory r ∧ candidateMode res.1 = candidateMode r.

Lemma quiet_delete r : quiet r (handlePanelDelete r r).
Proof.
  unfold quiet, handlePanelDelete.
  destruct (focusedPinyinCandidate r); [by split|].
  destruct (0 <? length (selectionHistory r)).
  { destruct (last (selectionHistory r)); by split. }
  destruct (0 <? length (pinyinKeys r)); [by split|].
  destruct (0 <? length (stagedText r)); by split.
Qed.

(** X10. What is learnt is kept: no event ever lowers a usage count (a
    reset of the composition, a commit or an undo leave the counts as they
    are), and the candidate mode only changes by its button. *)
Theorem learning_is_kept (e : Event) (r : State) :
  (∀ v, default 0%nat (usageHistory r !! v)
        ≤ default 0%nat (usageHistory (step_ e r) !! v)) ∧
  (e ≠ ModeClick → candidateMode (step_ e r) = candidateMode r).
Proof.
  assert (Hquiet : ∀ res, quiet r res →
            (∀ v, default 0%nat (usageHistory r !! v)
                  ≤ default 0%nat (usageHistory res.1 !! v)) ∧
            candidateMode res.1 = candidateMode r).
  { intros res (-> & ->). split; [intros; lia|done]. }
  assert (Hselect : ∀ c,
            (∀ v, default 0%nat (usageHistory r !! v)
                  ≤ default 0%nat (usageHistory (step_ (CandidateClick c) r) !! v)) ∧
            candidateMode (step_ (CandidateClick c) r) = candidateMode r).
  { intros c.
    destruct (select_usage toLowerCase VALID_PINYINS PINYIN_TO_HANZI COMMON_PHRASES
                c r) as [-> ->].
    split; [|done]. intros v. rewrite lookup_insert.
    case_decide; subst; simpl; lia. }
  assert (Hq : ∀ res, res.1 = r ∨ quiet r res →
            (∀ v, default 0%nat (usageHistory r !! v)
                  ≤ default 0%nat (usageHistory res.1 !! v)) ∧
            candidateMode res.1 = candidateMode r).
  { intros res [->|H]; [by split|by apply Hquiet]. }
  destruct e as [data|data|c|c|seg| | | |p|b].
  - cut ((∀ v, default 0%nat (usageHistory r !! v)
               ≤ default 0%nat (usageHistory (step_ (Tap data) r) !! v)) ∧
         candidateMode (step_ (Tap data) r) = candidateMode r); [tauto|].
    unfold step, dispatch, handler, handleTap.
    destruct (type data).
    1, 3:
      destruct (chars data) as [cs|]; [|apply Hq; by left];
      destruct (length cs =? 1);
      [destruct (cs !! 0); apply Hq; by left|apply Hq; right; by split].
    case_bool_decide; [apply Hquiet, quiet_delete|].
    case_bool_decide.
    { destruct (_ && _).
      - destruct (_ !! 0) as [best|]; [apply Hselect|apply Hq; by left].
      - destruct (0 <? length (stagedText r)); apply Hq; right; by split. }
    case_bool_decide.
    { destruct (_ || _); apply Hq; right; by split. }
    case_bool_decide; apply Hq; by left.
  - split; [|intros _]; apply Hquiet; unfold dispatch, handler, handleLongPressStart;
      case_bool_decide; by split.
  - split; [|intros _]; apply Hquiet; unfold dispatch, handler, handleSlideCommit;
      (destruct (_ || _); [destruct (0 <? length (stagedText r))|]; by split).
  - split; [|intros _]; apply Hselect.
  - split; [|intros _]; apply Hquiet; unfold dispatch, handler, handleSegmentClick;
      destruct (match focusedPinyinCandidate r with Some _ => _ | None => _ end);
      by split.
  - split; [|intros _]; apply Hquiet, quiet_delete.
  - split; [|done]. intros v. by cbn.
  - split; [|intros _]; apply Hquiet; by split.
  - split; [|intros _]; apply Hquiet; by split.
  - split; [|intros _]; apply Hquiet; by split.
Qed.

Lemma delete_outputs r : length (handlePanelDelete r r).2 ≤ 1.
Proof.
  unfold handlePanelDelete.
  destruct (focusedPinyinCandidate r); [cbn; lia|].
  destruct (0 <? length (selectionHistory r)).
  { destruct (last (selectionHistory r)); cbn; lia. }
  destruct (0 <? length (pinyinKeys r)); [cbn; lia|].
  destruct (0 <? length (stagedText r)); cbn; lia.
Qed.

Lemma select_outputs c r : length (handleCandidateSelect c r r).2 ≤ 1.
Proof.
  unfold handleCandidateSelect.
  destruct (length (drop (consumedLen c) (pinyinKeys r)) =? 0); cbn; lia.
Qed.

(** X11. An event makes at most one call to the host, except the commit of
    a slid letter, which makes at most two (the staged text, then the
    letter). *)
Theorem host_calls_per_event (e : Event) (r : State) :
  length (dispatch_ e r).2 ≤ match e with SlideCommit _ => 2 | _ => 1 end.
Proof.
  destruct e as [data|data|c|c|seg| | | |p|b]; unfold dispatch, handler.
  - unfold handleTap. destruct (type data).
    1, 3:
      destruct (chars data) as [cs|]; [|cbn; lia];
      destruct (length cs =? 1); [destruct (cs !! 0)|]; cbn; lia.
    case_bool_decide; [apply delete_outputs|].
    case_bool_decide.
    { destruct (_ && _).
      - destruct (_ !! 0) as [best|]; [apply select_outputs|cbn; lia].
      - destruct (0 <? length (stagedText r)); cbn; lia. }
    case_bool_decide.
    { destruct (_ || _); cbn; lia. }
    case_bool_decide; cbn; lia.
  - unfold handleLongPressStart. case_bool_decide; cbn; lia.
  - unfold handleSlideCommit.
    destruct (_ || _); [destruct (0 <? length (stagedText r))|]; cbn; lia.
  - apply select_outputs.
  - unfold handleSegmentClick.
    destruct (match focusedPinyinCandidate r with Some _ => _ | None => _ end);
      cbn; lia.
  - apply delete_outputs.
  - cbn; lia.
  - cbn; lia.
  - cbn; lia.
  - cbn; lia.
Qed.

(** X12. The close button, a long press on backspace, the commit of a slid
    letter and the enter key always leave the composition idle (no pending
    key, no staged text), with the usage counts and the mode as they were. *)
Theorem reset_events_leave_idle (e : Event) (r : State) :
  e = CloseClick ∨
  (∃ data, e = LongPressStart data ∧ action data = Some (js "backspace")) ∨
  (∃ c, e = SlideCommit c) ∨
  (∃ data, e = Tap data ∧ type data = action_key ∧ action data = Some (js "enter")) →
  idle (step_ e r) ∧
  usageHistory (step_ e r) = usageHistory r ∧
  candidateMode (step_ e r) = candidateMode r.
Proof.
  intros [->|[(data & -> & Ha)|[(c & ->)|(data & -> & Hty & Ha)]]];
    unfold step, dispatch, handler.
  - by repeat split.
  - unfold handleLongPressStart. rewrite Ha, bool_decide_eq_true_2 by done.
    by repeat split.
  - unfold handleSlideCommit.
    destruct (0 <? length (pinyinKeys r)) eqn:Ek;
      destruct (0 <? length (stagedText r)) eqn:Es; cbn; try by repeat split.
    apply Nat.ltb_ge in Ek, Es.
    assert (pinyinKeys r = []) by (apply length_zero_iff_nil; lia).
    assert (stagedText r = []) by (apply length_zero_iff_nil; lia).
    by repeat split.
  - unfold handleTap. rewrite Hty, Ha.
    rewrite bool_decide_eq_false_2 by (intros [= H]; vm_compute in H; discriminate H).
    rewrite bool_decide_eq_false_2 by (intros [= H]; vm_compute in H; discriminate H).
    rewrite bool_decide_eq_true_2 by done.
    destruct (0 <? length (pinyinKeys r)) eqn:Ek;
      destruct (0 <? length (stagedText r)) eqn:Es; cbn; try by repeat split.
    apply Nat.ltb_ge in Ek, Es.
    assert (pinyinKeys r = []) by (apply length_zero_iff_nil; lia).
    assert (stagedText r = []) by (apply length_zero_iff_nil; lia).
    by repeat split.
Qed.

(** X13. With nothing being composed, a tap on a key of one letter of one
    code unit and then a tap on backspace give the text of the host back:
    the letter is appended by [handleKeyPress] and removed by
    [handleDelete], and the state of the keyboard does not change. *)
Theorem punctuation_then_backspace (r : State) (a : AppState)
    (data bs : KeyGroup) (c : jsstring) :
  type data ≠ action_key → chars data = Some [c] → length c = 1 →
  type bs = action_key → action bs = Some (js "backspace") →
  pinyinKeys r = [] → stagedText r = [] → selectionHistory r = [] →
  focusedPinyinCandidate r = None →
  let res := dispatchAll_ [Tap data; Tap bs] r in
  res = (r, [KeyPress c; Delete]) ∧ hostCalls a res.2 = a.
Proof.
  intros Hty Hc Hlen Hbs Hact Hk Hs Hh Hf res.
  assert (E : res = (r, [KeyPress c; Delete])).
  { unfold res. cbn [dispatchAll]. unfold dispatch, handler, handleTap.
    rewrite Hc, Hbs, Hact. cbn [length Nat.eqb lookup list_lookup].
    replace (match type data with action_key => _ | _ => onKeyPress c end r)
      with (r, [KeyPress c]) by (by destruct (type data)).
    rewrite bool_decide_eq_true_2 by done.
    unfold handlePanelDelete. rewrite Hf, Hh, Hk, Hs. by cbn. }
  split; [done|]. rewrite E. destruct a as [inp hm]. cbn.
  unfold handleDelete, handleKeyPress. cbn [input handMode].
  f_equal. unfold sliceNeg. cbn [Nat.eqb]. rewrite length_app, Hlen.
  replace (length inp + 1 - 1) with (length inp) by lia.
  by rewrite take_app_length.
Qed.

End EventProperties.

Lemma reset_events_leave_idle_witness :
  idle (step asciiLower emptyEntryValid emptyEntryHanzi ∅ (Tap keyEnter) afterFirstPick) ∧
  usageHistory (step asciiLower emptyEntryValid emptyEntryHanzi ∅ (Tap keyEnter)
                     afterFirstPick) = usageHistory afterFirstPick ∧
  candidateMode (step asciiLower emptyEntryValid emptyEntryHanzi ∅ (Tap keyEnter)
                      afterFirstPick) = candidateMode afterFirstPick.
Proof.
  apply (reset_events_leave_idle asciiLower emptyEntryValid emptyEntryHanzi ∅
           (Tap keyEnter) afterFirstPick).
  right; right; right. exists keyEnter. repeat split; reflexivity.
Defined.

Lemma punctuation_then_backspace_witness :
  let res := dispatchAll asciiLower phraseValid phraseHanzi phrasePhrases
               [Tap keyComma; Tap keyBackspace] initialState in
  res = (initialState, [KeyPress (js ","); Delete]) ∧
  hostCalls {| input := js "ni hao"; handMode := full |} res.2
  = {| input := js "ni hao"; handMode := full |}.
Proof.
  apply (punctuation_then_backspace asciiLower phraseValid phraseHanzi phrasePhrases
           initialState {| input := js "ni hao"; handMode := full |}
           keyComma keyBackspace (js ","));
    try reflexivity; discriminate.
Defined.

(** ** The pinyin bar, the candidate grid, the magnifier *)

Section PinyinBar.

Variable toLowerCase : jsstring → jsstring.
Variable VALID_PINYINS : list jsstring.

(** X14. The segments shown in the pinyin bar always account for the whole
    buffer: their lengths sum to the number of pending keys, whether the
    first segmentation is shown or, without any segmentation, the raw
    reading of the keys. *)
Theorem pinyin_bar_covers_buffer (pinyinKeys : list KeyGroup) :
  sum_list (len <$> activeSegmentsDisplay pinyinKeys
                      (segmentations toLowerCase VALID_PINYINS pinyinKeys))
  = length pinyinKeys.
Proof.
  unfold activeSegmentsDisplay.
  destruct pinyinKeys as [|k ks]; [done|].
  set (pinyinKeys := k :: ks).
  destruct (segmentations toLowerCase VALID_PINYINS pinyinKeys) as [|d l] eqn:E.
  - simpl. lia.
  - cbn [length Nat.ltb Nat.leb lookup list_lookup default from_option].
    assert (Hd : d ∈ segmentations toLowerCase VALID_PINYINS pinyinKeys)
      by (rewrite E; apply list_elem_of_here).
    apply segmentations_decomposes in Hd; [|done].
    destruct (decomposes_lens _ _ _ _ Hd) as [Hsum _].
    destruct d as [|s d]; [done|]. done.
Qed.

End PinyinBar.

Lemma totalPages_div (cs : list Candidate) :
  totalPages cs = ((Z.of_nat (length cs) + 15) / 16)%Z.
Proof.
  unfold totalPages, Qceiling, ITEMS_PER_PAGE, GRID_COLS, GRID_ROWS.
  generalize (Z.of_nat (length cs)). intros n. unfold Qdiv.
  change (/ inject_Z (4 * 4))%Q with (1 # 16)%Q. cbn.
  Z.to_euclidean_division_equations. lia.
Qed.

Lemma take_min_length {A : Type} (l : list A) (n m : nat) :
  m = n `min` length l → take m l = take n l.
Proof.
  intros ->. destruct (decide (n ≤ length l)).
  - by rewrite Nat.min_l.
  - rewrite Nat.min_r by lia. by rewrite !take_ge by lia.
Qed.

Lemma currentCandidates_nat (cs : list Candidate) (p : nat) :
  currentCandidates cs (Z.of_nat p) = take 16 (drop (16 * p) cs).
Proof.
  unfold currentCandidates, jsSlice, relativeIndex, ITEMS_PER_PAGE, GRID_COLS, GRID_ROWS.
  change (4 * 4)%Z with 16%Z.
  rewrite !(proj2 (Z.ltb_ge _ _)) by lia.
  destruct (decide (16 * p ≤ length cs)).
  - replace (Z.to_nat (Z.min (Z.of_nat p * 16) (Z.of_nat (length cs))))
      with (16 * p) by lia.
    apply take_min_length. rewrite length_drop. lia.
  - rewrite !drop_ge by lia. by rewrite !take_nil.
Qed.

Lemma chunks_concat {A : Type} (l : list A) (k : nat) :
  concat ((λ p, take 16 (drop (16 * p) l)) <$> seq 0 k) = take (16 * k) l.
Proof.
  induction k as [|k IH]; [done|].
  rewrite seq_S, fmap_app, concat_app, IH. simpl. rewrite app_nil_r.
  rewrite take_take_drop. f_equal. lia.
Qed.

(** X15. The pages of the grid partition the candidate list: the pages 0 to
    [totalPages - 1], one after the other, are the list itself, and each of
    them holds between one and sixteen candidates. *)
Theorem pages_partition_candidates (cs : list Candidate) :
  concat ((λ p, currentCandidates cs (Z.of_nat p))
            <$> seq 0 (Z.to_nat (totalPages cs))) = cs ∧
  ∀ p, (0 ≤ p < totalPages cs)%Z → 1 ≤ length (currentCandidates cs p) ≤ 16.
Proof.
  pose proof (totalPages_div cs) as Ht. split.
  - erewrite list_fmap_ext; [|intros i p _; apply currentCandidates_nat].
    rewrite chunks_concat, take_ge; [done|].
    rewrite Ht. Z.to_euclidean_division_equations. lia.
  - intros p Hp. rewrite <- (Z2Nat.id p) by lia.
    rewrite currentCandidates_nat, length_take, length_drop.
    rewrite Ht in Hp. Z.to_euclidean_division_equations. lia.
Qed.

(** X16. A swipe on the grid keeps the page inside the pages that exist and
    moves it by at most one page; nothing else of the state changes. *)
Theorem grid_swipe_in_range (touchStartY : option Q) (clientY : Q)
    (cs : list Candidate) (r : State) :
  (0 ≤ page r < totalPages cs)%Z →
  let r' := (handleGridTouchEnd touchStartY clientY (totalPages cs) r).1 in
  (0 ≤ page r' < totalPages cs)%Z ∧ (Z.abs (page r' - page r) ≤ 1)%Z ∧
  pinyinKeys r' = pinyinKeys r ∧ stagedText r' = stagedText r ∧
  selectionHistory r' = selectionHistory r ∧
  focusedPinyinCandidate r' = focusedPinyinCandidate r.
Proof.
  intros Hp. unfold handleGridTouchEnd, pageUp, pageDown.
  destruct touchStartY as [startY|]; [|cbn; repeat split; lia].
  destruct (Qlt_le_dec 50 _); [|cbn; repeat split; lia].
  destruct (Qlt_le_dec _ 0); cbn; repeat split; lia.
Qed.

(** X17. After a long press on a key that has letters, lifting the finger
    always commits one of the letters of the key, however far the finger
    slid; and when it did not leave the first 35 pixels to the right of the
    start, the letter committed is the one the magnifier highlighted when it
    opened. *)
Theorem slide_commits_a_letter (data : KeyGroup) (cs : list jsstring) (diffX : Q) :
  chars data = Some cs → cs ≠ [] →
  ∃ c, handleTouchEnd data true diffX = Some (SlideCommit c) ∧ c ∈ cs ∧
       ((0 <= diffX)%Q ∧ (diffX < 35)%Q →
          cs !! Z.to_nat (initialSlideIndex data) = Some c).
Proof.
  intros Hcs Hne.
  assert (Hlen : 1 ≤ length cs) by (destruct cs; [done|simpl; lia]).
  assert (Hmid : middleIndex (length cs) = (Z.of_nat (length cs) / 2)%Z).
  { unfold middleIndex. change 2%Q with (inject_Z 2). by rewrite <- Zdiv_Qdiv. }
  assert (Hidx : (0 ≤ slideIndexAt (length cs) diffX < Z.of_nat (length cs))%Z).
  { unfold slideIndexAt. lia. }
  destruct (lookup_lt_is_Some_2 cs (Z.to_nat (slideIndexAt (length cs) diffX)))
    as [c Hc]; [lia|].
  exists c. unfold handleTouchEnd. rewrite Hcs, Hc.
  split; [done|]. split; [by eapply list_elem_of_lookup_2|].
  intros [Hlo Hhi]. unfold initialSlideIndex. rewrite Hcs.
  cbn [default from_option]. unfold id.
  rewrite <- Hc. f_equal. f_equal. unfold slideIndexAt.
  assert (Hshift : Qfloor (diffX / 35) = 0%Z).
  { pose proof (Qfloor_le (diffX / 35)) as H1.
    pose proof (Qlt_floor (diffX / 35)) as H2.
    assert (H3 : (0 <= diffX / 35)%Q) by (apply Qle_shift_div_l; lra).
    assert (H4 : (diffX / 35 < 1)%Q) by (apply Qlt_shift_div_r; lra).
    assert (H5 : (inject_Z (Qfloor (diffX / 35)) < inject_Z 1)%Q)
      by (change (inject_Z 1) with 1%Q; lra).
    assert (H6 : (inject_Z 0 < inject_Z (Qfloor (diffX / 35) + 1))%Q)
      by (change (inject_Z 0) with 0%Q; lra).
    rewrite <- Zlt_Qlt in H5, H6. lia. }
  rewrite Hshift, Hmid. Z.to_euclidean_division_equations. lia.
Qed.

(** X18. The magnifier popup is placed at least 10 pixels from the left
    edge of the window, 80 pixels above the key, and when the window is wide
    enough for the popup and both margins it also ends at least 10 pixels
    before the right edge; without letters or without a rectangle nothing is
    rendered. *)
Theorem popup_inside_window (innerWidth : Q) (chars : list jsstring) (rect : Rect) :
  ExpansionPopup innerWidth chars None = None ∧
  ExpansionPopup innerWidth [] (Some rect) = None ∧
  (chars ≠ [] →
   let popupWidth := (inject_Z (Z.of_nat (length chars)) * 40 + 20)%Q in
   ∃ left, ExpansionPopup innerWidth chars (Some rect)
             = Some ((rect_top rect - 80)%Q, left) ∧
           (10 <= left)%Q ∧
           ((popupWidth + 20 <= innerWidth)%Q →
            (left + popupWidth <= innerWidth - 10)%Q)).
Proof.
  split; [done|]. split; [done|]. intros Hne popupWidth.
  unfold ExpansionPopup. destruct (length chars =? 0) eqn:E.
  { apply Nat.eqb_eq, length_zero_iff_nil in E. done. }
  eexists. split; [reflexivity|]. fold popupWidth. split.
  - apply Q.le_max_l.
  - intros Hw.
    assert (H : (Qmax 10 (Qmin (innerWidth - popupWidth - 10)
                               (rect_left rect + rect_width rect / 2 - popupWidth / 2))
                 <= innerWidth - popupWidth - 10)%Q).
    { apply Q.max_lub; [lra|apply Q.le_min_l]. }
    lra.
Qed.

Lemma grid_swipe_in_range_witness :
  let cs := candidates phraseHanzi phrasePhrases phraseBuffer
              (segmentations asciiLower phraseValid phraseBuffer) ∅ WordMode None in
  let r' := (handleGridTouchEnd (Some 300%Q) 120%Q (totalPages cs) initialState).1 in
  (0 ≤ page r' < totalPages cs)%Z ∧ (Z.abs (page r' - page initialState) ≤ 1)%Z ∧
  pinyinKeys r' = pinyinKeys initialState ∧ stagedText r' = stagedText initialState ∧
  selectionHistory r' = selectionHistory initialState ∧
  focusedPinyinCandidate r' = focusedPinyinCandidate initialState.
Proof.
  apply (grid_swipe_in_range (Some 300%Q) 120%Q
           (candidates phraseHanzi phrasePhrases phraseBuffer
              (segmentations asciiLower phraseValid phraseBuffer) ∅ WordMode None)
           initialState).
  vm_compute. split; [discriminate|reflexivity].
Defined.

Lemma slide_commits_a_letter_witness :
  ∃ c, handleTouchEnd keyYUIOP true (-40)%Q = Some (SlideCommit c) ∧
       c ∈ js <$> ["y"; "u"; "i"; "o"; "p"]%string ∧
       ((0 <= -40)%Q ∧ (-40 < 35)%Q →
          (js <$> ["y"; "u"; "i"; "o"; "p"]%string)
            !! Z.to_nat (initialSlideIndex keyYUIOP) = Some c).
Proof.
  apply (slide_commits_a_letter keyYUIOP (js <$> ["y"; "u"; "i"; "o"; "p"]%string)
           (-40)%Q).
  - reflexivity.
  - discriminate.
Defined.

(** One pixel to the left already selects the letter before the middle
    one, while it takes 35 pixels to the right to select the next. *)
Example slide_one_pixel_left :
  handleTouchEnd keyYUIOP true (-1)%Q = Some (SlideCommit (js "u")) ∧
  handleTouchEnd keyYUIOP true 34%Q = Some (SlideCommit (js "i")) ∧
  handleTouchEnd keyYUIOP true 35%Q = Some (SlideCommit (js "o")).
Proof. repeat split; vm_compute; reflexivity. Qed.

(** ** Where the candidates without focus come from *)

Lemma joinApostrophe_snoc (strs : list jsstring) (s : jsstring) :
  joinApostrophe (strs ++ [s])
  = joinApostrophe strs ++ (if 0 <? length strs then js "'" else []) ++ s.
Proof.
  induction strs as [|s0 strs IH]; [done|].
  cbn [app joinApostrophe]. rewrite IH.
  destruct strs as [|s1 strs]; [done|].
  cbn [app length Nat.ltb Nat.leb]. by rewrite <- !app_assoc.
Qed.

Lemma listRequests_covers baseScore consumedLen type penaltyStep from entries v :
  v ∈ entries →
  ∃ q, q ∈ listRequests baseScore consumedLen type penaltyStep from entries ∧
       req_value q = v ∧ req_consumedLen q = consumedLen.
Proof.
  revert from. induction entries as [|h entries IH]; intros from Hv; simpl.
  - by apply elem_of_nil in Hv.
  - apply elem_of_cons in Hv as [->|Hv].
    + eexists. split; [apply list_elem_of_here|done].
    + destruct (IH (S from) Hv) as (q & Hq & ?).
      exists q. split; [by apply list_elem_of_further|done].
Qed.

Section CandidateSources.

Variable PINYIN_TO_HANZI : gmap jsstring (list jsstring).
Variable COMMON_PHRASES : gmap jsstring (list jsstring).

Local Arguments Nat.min : simpl never.

(** The pair [(v, m)] is a phrase of the first [j] syllables of [path], for
    some [j] from 1 to [n]. *)
Let phrase_of (path : list Segment) (n : nat) (v : jsstring) (m : nat) : Prop :=
  ∃ j phrases, 1 ≤ j ≤ n ∧
    COMMON_PHRASES !! joinApostrophe (str <$> take j path) = Some phrases ∧
    v ∈ phrases ∧ m = sum_list (len <$> take j path).

(** The pair [(v, m)] is a character of the first syllable of [path]. *)
Let char_of (path : list Segment) (v : jsstring) (m : nat) : Prop :=
  ∃ s hanzis, path !! 0 = Some s ∧ PINYIN_TO_HANZI !! str s = Some hanzis ∧
    v ∈ hanzis ∧ m = len s.

Lemma phraseTrace_exact path n :
  n ≤ length path →
  ∃ qs,
    foldl (phraseTraceStep COMMON_PHRASES path) ([], 0, []) (seq 0 n)
      = (joinApostrophe (str <$> take n path),
         sum_list (len <$> take n path), qs) ∧
    ∀ v m, (∃ q, q ∈ qs ∧ pairOf q = (v, m)) ↔ phrase_of path n v m.
Proof.
  induction n as [|n IH]; intros Hn.
  - exists []. split; [done|]. intros v m. split.
    + by intros (q & ?%elem_of_nil & _).
    + intros (j & ? & ? & _). lia.
  - destruct IH as (qs & E & Hqs); [lia|].
    destruct (lookup_lt_is_Some_2 path n) as [s Hs]; [lia|].
    rewrite seq_S, foldl_app, E. cbn [foldl phraseTraceStep Nat.add]. rewrite Hs.
    assert (Ekey : joinApostrophe (str <$> take n path)
                     ++ (if 0 <? n then js "'" else []) ++ str s
                   = joinApostrophe (str <$> take (S n) path)).
    { rewrite (take_S_r _ _ _ Hs), fmap_app. cbn [fmap list_fmap].
      rewrite joinApostrophe_snoc, length_fmap, length_take. by rewrite Nat.min_l by lia. }
    assert (Elen : sum_list (len <$> take n path) + len s
                   = sum_list (len <$> take (S n) path)).
    { rewrite (take_S_r _ _ _ Hs), fmap_app, sum_list_with_app. simpl. lia. }
    rewrite Ekey, Elen. eexists. split; [reflexivity|].
    intros v m. split.
    + intros (q & [Hq|Hq]%elem_of_app & Ep).
      * destruct (proj1 (Hqs v m)) as (j & phrases & ? & ? & ? & ?); [by exists q|].
        exists j, phrases. repeat split; try done; lia.
      * destruct (COMMON_PHRASES !! _) as [phrases|] eqn:El;
          [|by apply elem_of_nil in Hq].
        apply listRequests_elem in Hq as (_ & Hc & _ & Hv & _).
        unfold pairOf in Ep. injection Ep as <- <-.
        exists (S n), phrases. repeat split; try done; lia.
    + intros (j & phrases & [Hj1 Hj2] & El & Hv & ->).
      destruct (decide (j = S n)) as [->|Hne].
      * rewrite El.
        destruct (listRequests_covers 150 (sum_list (len <$> take (S n) path))
                    Phrase 0.1 0 phrases v Hv) as (q & Hq & Eqv & Eqc).
        exists q. split; [apply elem_of_app; by right|].
        unfold pairOf. by rewrite Eqv, Eqc.
      * destruct (proj2 (Hqs v (sum_list (len <$> take j path)))) as (q & Hq & Ep).
        { exists j, phrases. repeat split; try done; lia. }
        exists q. split; [|done]. apply elem_of_app. by left.
Qed.

Lemma pathRequests_pairs path v m :
  (∃ q, q ∈ pathRequests PINYIN_TO_HANZI COMMON_PHRASES path ∧ pairOf q = (v, m)) ↔
  phrase_of path (4 `min` length path) v m ∨ char_of path v m.
Proof.
  unfold pathRequests.
  destruct (length path =? 0) eqn:E0.
  { apply Nat.eqb_eq, length_zero_iff_nil in E0. subst path. split.
    - by intros (q & ?%elem_of_nil & _).
    - intros [(j & ? & Hj & _)|(s & ? & Hs & _)]; [simpl in Hj; lia|done]. }
  destruct (phraseTrace_exact path (length path `min` 4)) as (qs & E & Hqs); [lia|].
  rewrite E. cbn [snd]. rewrite (Nat.min_comm 4). split.
  - intros (q & [Hq|Hq]%elem_of_app & Ep).
    + left. apply Hqs. by exists q.
    + right. destruct (path !! 0) as [s|] eqn:Es; [|by apply elem_of_nil in Hq].
      destruct (PINYIN_TO_HANZI !! str s) as [hanzis|] eqn:El;
        [|by apply elem_of_nil in Hq].
      apply listRequests_elem in Hq as (_ & Hc & _ & Hv & _).
      unfold pairOf in Ep. injection Ep as <- <-. by exists s, hanzis.
  - intros [(q & Hq & Ep)%Hqs|(s & hanzis & Es & El & Hv & ->)].
    + exists q. split; [|done]. apply elem_of_app. by left.
    + rewrite Es, El.
      destruct (listRequests_covers 50 (len s) Char 0.5 0 hanzis v Hv)
        as (q & Hq & Eqv & Eqc).
      exists q. split; [apply elem_of_app; by right|].
      unfold pairOf. by rewrite Eqv, Eqc.
Qed.

(** X19. Without focus and with at least one segmentation, the (value,
    consumedLen) pairs of the candidate list are exactly: the phrases that
    [COMMON_PHRASES] lists under the apostrophe-joined first one to four
    syllables of a segmentation, consuming the keys of those syllables; and
    the characters that [PINYIN_TO_HANZI] lists under the first syllable of a
    segmentation, consuming its keys. *)
Theorem default_candidates_sources (pinyinKeys : list KeyGroup)
    (segs : list (list Segment)) (usage : gmap jsstring nat) (mode : CandidateMode)
    (v : jsstring) (m : nat) :
  pinyinKeys ≠ [] → segs ≠ [] →
  (∃ c, c ∈ candidates PINYIN_TO_HANZI COMMON_PHRASES pinyinKeys segs usage mode None ∧
        value c = v ∧ consumedLen c = m) ↔
  ∃ path, path ∈ segs ∧
    ((∃ j phrases, 1 ≤ j ≤ 4 `min` length path ∧
        COMMON_PHRASES !! joinApostrophe (str <$> take j path) = Some phrases ∧
        v ∈ phrases ∧ m = sum_list (len <$> take j path)) ∨
     (∃ s hanzis, path !! 0 = Some s ∧ PINYIN_TO_HANZI !! str s = Some hanzis ∧
        v ∈ hanzis ∧ m = len s)).
Proof.
  intros Hkeys Hsegs.
  assert (Hreq : requests PINYIN_TO_HANZI COMMON_PHRASES pinyinKeys segs None
                 = concat (pathRequests PINYIN_TO_HANZI COMMON_PHRASES <$> segs)).
  { unfold requests. destruct segs; [done|]. done. }
  assert (Hcat : ∀ q, q ∈ concat (pathRequests PINYIN_TO_HANZI COMMON_PHRASES <$> segs) ↔
                      ∃ path, path ∈ segs ∧
                              q ∈ pathRequests PINYIN_TO_HANZI COMMON_PHRASES path).
  { intros q. rewrite list_elem_of_In, in_concat. split.
    - intros (qs & (path & -> & Hp)%list_elem_of_In%list_elem_of_fmap & Hq%list_elem_of_In).
      by exists path.
    - intros (path & Hp & Hq). eexists. rewrite <- !list_elem_of_In.
      split; [|exact Hq]. by apply list_elem_of_fmap_2. }
  split.
  - intros (c & (_ & q & -> & Hq%firstPerPair_elem)%elem_of_candidates & <- & <-).
    rewrite Hreq in Hq. apply Hcat in Hq as (path & Hp & Hq).
    exists path. split; [done|].
    apply (pathRequests_pairs path). by exists q.
  - intros (path & Hp & Hsrc).
    apply (pathRequests_pairs path) in Hsrc as (q & Hq & Ep).
    destruct (firstPerPair_covers []
                (requests PINYIN_TO_HANZI COMMON_PHRASES pinyinKeys segs None) q)
      as (q' & Hq' & Ep'); [|apply not_elem_of_nil|].
    { rewrite Hreq. apply Hcat. by exists path. }
    exists (scored usage mode q'). split.
    + apply elem_of_candidates. split; [done|]. by exists q'.
    + rewrite Ep in Ep'. unfold pairOf in Ep'. injection Ep' as Ev Ec.
      unfold scored. cbn [value consumedLen]. by rewrite Ev, Ec.
Qed.

End CandidateSources.

Lemma default_candidates_sources_witness :
  phraseBuffer ≠ [] ∧
  ((∃ c, c ∈ candidates phraseHanzi phrasePhrases phraseBuffer
               [[ {| str := js "pu"; len := 2 |}; {| str := js "rui"; len := 3 |} ]]
               ∅ WordMode None ∧
         value c = puRui ∧ consumedLen c = 5) ↔
   ∃ path, path ∈ [[ {| str := js "pu"; len := 2 |}; {| str := js "rui"; len := 3 |} ]] ∧
     ((∃ j phrases, 1 ≤ j ≤ 4 `min` length path ∧
         phrasePhrases !! joinApostrophe (str <$> take j path) = Some phrases ∧
         puRui ∈ phrases ∧ 5 = sum_list (len <$> take j path)) ∨
      (∃ s hanzis, path !! 0 = Some s ∧ phraseHanzi !! str s = Some hanzis ∧
         puRui ∈ hanzis ∧ 5 = len s))).
Proof.
  split; [done|].
  apply (default_candidates_sources phraseHanzi phrasePhrases phraseBuffer
           [[ {| str := js "pu"; len := 2 |}; {| str := js "rui"; len := 3 |} ]]
           ∅ WordMode puRui 5); done.
Defined.

(** ** No segmentation is returned twice *)

Section SolveNoDup.

Variable toLowerCase : jsstring → jsstring.
Variable VALID_PINYINS : list jsstring.
Variable pinyinKeys : list KeyGroup.

Hypothesis VALID_PINYINS_NoDup : NoDup VALID_PINYINS.

Let NoDup_rec (solve_ : nat → Memo → list (list Segment) * Memo) : Prop :=
  ∀ i memo, memo_NoDup memo →
    memo_NoDup (solve_ i memo).2 ∧ NoDup (solve_ i memo).1.

Lemma solveMatch_NoDup solve_ index len ms results memo :
  NoDup_rec solve_ → memo_NoDup memo → NoDup ms → NoDup results →
  (∀ d m, d ∈ results → m ∈ ms → head d ≠ Some {| str := m; len := len |}) →
  let res := foldl (solveMatch solve_ index len) (results, memo) ms in
  memo_NoDup res.2 ∧ NoDup res.1 ∧
  ∀ d, d ∈ res.1 →
       d ∈ results ∨ ∃ m, m ∈ ms ∧ head d = Some {| str := m; len := len |}.
Proof.
  intros Hrec. revert results memo.
  induction ms as [|m ms IH]; intros results memo Hmemo Hms Hres Hfresh; simpl.
  - repeat split; try done. by left.
  - destruct (Hrec (index + len) memo Hmemo) as [Hmemo' Hsuf].
    unfold solveMatch at 2.
    destruct (solve_ (index + len) memo) as [suffixes memo'] eqn:E.
    simpl in Hmemo', Hsuf.
    apply NoDup_cons in Hms as [Hm Hms].
    destruct (IH (results ++ ((λ suffix, {| str := m; len := len |} :: suffix)
                                <$> suffixes)) memo' Hmemo' Hms) as (Hok & Hnd & Hin).
    + apply NoDup_app. split; [done|]. split.
      * intros d Hd (d' & -> & _)%list_elem_of_fmap.
        apply (Hfresh _ m Hd); [apply list_elem_of_here|done].
      * apply NoDup_fmap_2; [|done]. by intros d1 d2 [= ->].
    + intros d m' [Hd|(d' & -> & _)%list_elem_of_fmap]%elem_of_app Hm'.
      * apply Hfresh; [done|]. by apply list_elem_of_further.
      * simpl. intros [= ->]. done.
    + repeat split; try done.
      intros d [[Hd|(d' & -> & _)%list_elem_of_fmap]%elem_of_app|(m' & Hm' & Hd)]%Hin.
      * by left.
      * right. exists m. split; [apply list_elem_of_here|done].
      * right. exists m'. split; [by apply list_elem_of_further|done].
Qed.

Lemma solveLen_NoDup solve_ index ls results memo :
  NoDup_rec solve_ → memo_NoDup memo → NoDup ls → NoDup results →
  (∀ d l s, d ∈ results → l ∈ ls → head d = Some s → len s ≠ l) →
  let res := foldl (solveLen toLowerCase VALID_PINYINS solve_ pinyinKeys index)
                   (results, memo) ls in
  memo_NoDup res.2 ∧ NoDup res.1 ∧
  ∀ d, d ∈ res.1 → d ∈ results ∨ ∃ s, head d = Some s ∧ len s ∈ ls.
Proof.
  intros Hrec. revert results memo.
  induction ls as [|l ls IH]; intros results memo Hmemo Hls Hres Hfresh; simpl.
  - repeat split; try done. by left.
  - apply NoDup_cons in Hls as [Hl Hls].
    change (solveLen toLowerCase VALID_PINYINS solve_ pinyinKeys index (results, memo) l)
      with (foldl (solveMatch solve_ index l) (results, memo)
              (chunkMatches toLowerCase VALID_PINYINS l
                 (slice pinyinKeys index (index + l)))).
    destruct (solveMatch_NoDup solve_ index l
                (chunkMatches toLowerCase VALID_PINYINS l
                   (slice pinyinKeys index (index + l)))
                results memo Hrec Hmemo) as (Hok & Hnd & Hin).
    { unfold chunkMatches. by apply NoDup_ListNoDup, List.NoDup_filter, NoDup_ListNoDup. }
    { done. }
    { intros d m Hd _ Hh. apply (Hfresh d l _ Hd) in Hh; [done|apply list_elem_of_here]. }
    destruct (foldl (solveMatch solve_ index l) (results, memo) _)
      as [results1 memo1]. simpl in Hok, Hnd, Hin.
    destruct (IH results1 memo1 Hok Hls Hnd) as (Hok' & Hnd' & Hin').
    + intros d l' s [Hd|(m & _ & Hh)]%Hin Hl' Hs.
      * apply (Hfresh d l' s Hd); [by apply list_elem_of_further|done].
      * rewrite Hs in Hh. injection Hh as ->. simpl. by intros ->.
    + repeat split; try done.
      intros d [[Hd|(m & _ & Hh)]%Hin|(s & Hs & Hl')]%Hin'.
      * by left.
      * right. eexists. split; [exact Hh|apply list_elem_of_here].
      * right. exists s. split; [done|by apply list_elem_of_further].
Qed.

Lemma solve_NoDup fuel :
  NoDup_rec (solve toLowerCase VALID_PINYINS pinyinKeys fuel).
Proof.
  induction fuel as [|fuel IH]; intros index memo Hmemo; simpl.
  { split; [done|apply NoDup_nil_2]. }
  destruct (index =? length pinyinKeys).
  { split; [done|]. apply NoDup_singleton. }
  destruct (memo !! index) as [cached|] eqn:Ememo; simpl.
  { split; [done|]. by apply (Hmemo index). }
  destruct (solveLen_NoDup (solve toLowerCase VALID_PINYINS pinyinKeys fuel) index
              (seq 1 (6 `min` (length pinyinKeys - index))) [] memo IH Hmemo)
    as (Hok & Hnd & _).
  { apply NoDup_seq. }
  { apply NoDup_nil_2. }
  { intros d l s Hd. by apply elem_of_nil in Hd. }
  destruct (foldl _ _ _) as [results memo1]. simpl in Hok, Hnd.
  split; [|done].
  intros i r. simpl. rewrite lookup_insert. case_decide.
  - by intros [= <-].
  - apply Hok.
Qed.

(** X20. When the dictionary lists no syllable twice, no segmentation is
    returned twice, so that the ranker meets every path once. *)
Theorem segmentations_NoDup :
  NoDup (segmentations toLowerCase VALID_PINYINS pinyinKeys).
Proof.
  unfold segmentations. destruct (length pinyinKeys =? 0); [apply NoDup_nil_2|].
  apply solve_NoDup. intros i r. by rewrite lookup_empty.
Qed.

End SolveNoDup.

Lemma segmentations_NoDup_witness :
  NoDup phraseValid ∧ NoDup (segmentations asciiLower phraseValid phraseBuffer).
Proof.
  assert (H : NoDup phraseValid).
  { unfold phraseValid. apply NoDup_cons. split.
    - intros [=]%list_elem_of_singleton.
    - apply NoDup_singleton. }
  split; [exact H|].
  exact (segmentations_NoDup asciiLower phraseValid phraseBuffer H).
Defined.

(** ** The phrase scenario among other segmentations *)

Section PhraseScenario.

Variable toLowerCase : jsstring → jsstring.
Variable VALID_PINYINS : list jsstring.
Variable PINYIN_TO_HANZI : gmap jsstring (list jsstring).
Variable COMMON_PHRASES : gmap jsstring (list jsstring).

Local Arguments Nat.min : simpl never.

Local Abbreviation segmentations_ := (segmentations toLowerCase VALID_PINYINS).
Local Abbreviation candidates_ := (candidates PINYIN_TO_HANZI COMMON_PHRASES).

Lemma phraseTrace_origin path n q :
  n ≤ length path →
  q ∈ (foldl (phraseTraceStep COMMON_PHRASES path) ([], 0, []) (seq 0 n)).2 →
  ∃ j phrases, 1 ≤ j ≤ n ∧
    COMMON_PHRASES !! joinApostrophe (str <$> take j path) = Some phrases ∧
    q ∈ listRequests 150 (sum_list (len <$> take j path)) Phrase 0.1 0 phrases.
Proof.
  induction n as [|n IH]; intros Hn Hq.
  - by apply elem_of_nil in Hq.
  - destruct (phraseTrace_exact COMMON_PHRASES path n) as (qs & E & _); [lia|].
    destruct (phraseTrace_exact COMMON_PHRASES path (S n)) as (qs' & E' & _); [lia|].
    destruct (lookup_lt_is_Some_2 path n) as [s Hs]; [lia|].
    rewrite E in IH.
    rewrite seq_S, foldl_app, E in E', Hq.
    cbn [foldl phraseTraceStep Nat.add] in E', Hq. rewrite Hs in E', Hq.
    injection E' as Ekey Elen _. rewrite Ekey, Elen in Hq.
    apply elem_of_app in Hq as [Hq|Hq].
    + destruct (IH ltac:(lia) Hq) as (j & phrases & ? & ? & ?).
      exists j, phrases. split; [lia|done].
    + destruct (COMMON_PHRASES !! _) as [phrases|] eqn:El;
        [|by apply elem_of_nil in Hq].
      exists (S n), phrases. split; [lia|done].
Qed.

Lemma pathRequests_origin path q :
  q ∈ pathRequests PINYIN_TO_HANZI COMMON_PHRASES path →
  (∃ j phrases, 1 ≤ j ≤ 4 `min` length path ∧
     COMMON_PHRASES !! joinApostrophe (str <$> take j path) = Some phrases ∧
     q ∈ listRequests 150 (sum_list (len <$> take j path)) Phrase 0.1 0 phrases) ∨
  (∃ s hanzis, path !! 0 = Some s ∧ PINYIN_TO_HANZI !! str s = Some hanzis ∧
     q ∈ listRequests 50 (len s) Char 0.5 0 hanzis).
Proof.
  unfold pathRequests. destruct (length path =? 0); [by intros ?%elem_of_nil|].
  intros [Hq|Hq]%elem_of_app.
  - left. apply phraseTrace_origin in Hq; [|lia].
    by rewrite (Nat.min_comm 4).
  - right. destruct (path !! 0) as [s|]; [|by apply elem_of_nil in Hq].
    destruct (PINYIN_TO_HANZI !! str s) as [hanzis|] eqn:El;
      [|by apply elem_of_nil in Hq].
    by exists s, hanzis.
Qed.

Lemma default_requests_origin pinyinKeys segs q :
  segs ≠ [] →
  q ∈ firstPerPair [] (requests PINYIN_TO_HANZI COMMON_PHRASES pinyinKeys segs None) →
  ∃ path, path ∈ segs ∧ q ∈ pathRequests PINYIN_TO_HANZI COMMON_PHRASES path.
Proof.
  intros Hsegs Hq%firstPerPair_elem. unfold requests in Hq.
  destruct segs as [|p segs]; [done|]. cbn [length Nat.ltb Nat.leb] in Hq.
  apply list_elem_of_In, in_concat in Hq
    as (qs & (path & -> & Hp)%list_elem_of_In%list_elem_of_fmap & Hq%list_elem_of_In).
  by exists path.
Qed.

(** C7 (as amended). When the buffer segments as [pu] (two key groups)
    followed by [rui] (three key groups), among whatever other segmentations
    it has, and the phrase table maps [pu'rui] to the one phrase, the
    candidate list without focus holds that phrase with [consumedLen] 5, the
    number of key groups of the two syllables, in either mode. In word mode,
    when the dictionary lists the phrase nowhere else, it scores strictly
    higher than every single-character candidate of type [Char] that has not
    been selected more often than the phrase, whatever the number of keys
    that candidate consumes. *)
Theorem pu_rui_phrase_first (pinyinKeys : list KeyGroup) (usage : gmap jsstring nat)
    (mode : CandidateMode) :
  [ {| str := js "pu"; len := 2 |}; {| str := js "rui"; len := 3 |} ]
    ∈ segmentations_ pinyinKeys →
  COMMON_PHRASES !! js "pu'rui" = Some [puRui] →
  let cs := candidates_ pinyinKeys (segmentations_ pinyinKeys) usage mode None in
  ∃ c, c ∈ cs ∧ value c = puRui ∧ consumedLen c = 5 ∧
       (mode = WordMode →
        listed_only_under puRui (js "pu'rui") PINYIN_TO_HANZI COMMON_PHRASES →
        ∀ d, d ∈ cs → ctype d = Char → length (value d) = 1 →
             default 0%nat (usage !! value d) ≤ default 0%nat (usage !! puRui) →
             (score d < score c)%Q).
Proof.
  intros Hseg Hph cs.
  set (path := [ {| str := js "pu"; len := 2 |}; {| str := js "rui"; len := 3 |} ]) in *.
  assert (Hkeys : pinyinKeys ≠ []) by (intros ->; by apply elem_of_nil in Hseg).
  assert (Hsegs : segmentations_ pinyinKeys ≠ []).
  { intros E. rewrite E in Hseg. by apply elem_of_nil in Hseg. }
  destruct (proj2 (pathRequests_pairs PINYIN_TO_HANZI COMMON_PHRASES path puRui 5))
    as (q & Hq & Ep).
  { left. exists 2, [puRui]. split; [simpl; lia|].
    split; [exact Hph|]. split; [apply list_elem_of_here|done]. }
  destruct (firstPerPair_covers []
              (requests PINYIN_TO_HANZI COMMON_PHRASES pinyinKeys
                 (segmentations_ pinyinKeys) None) q)
    as (q' & Hq' & Ep'); [|apply not_elem_of_nil|].
  { unfold requests. destruct (segmentations_ pinyinKeys) as [|p l] eqn:E; [done|].
    cbn [length Nat.ltb Nat.leb]. rewrite list_elem_of_In, in_concat.
    eexists. rewrite <- !list_elem_of_In. split; [|exact Hq].
    by apply list_elem_of_fmap_2. }
  rewrite Ep in Ep'. unfold pairOf in Ep'. injection Ep' as Ev Ec.
  exists (scored usage mode q').
  split; [apply elem_of_candidates; split; [done|by exists q']|].
  split; [done|]. split; [done|].
  intros -> [Hphrases Hhanzis] d (_ & qd & -> & Hqd)%elem_of_candidates Hchar Hlen Husage.
  simpl in Hchar, Hlen, Husage.
  assert (Hc : req_baseScore q' = 150%Q ∧ req_type q' = Phrase ∧
               req_indexPenalty q' = (inject_Z (Z.of_nat 0) * 0.1)%Q).
  { apply default_requests_origin in Hq' as (p & _ & Hq'); [|done].
    apply pathRequests_origin in Hq'
      as [(j & phrases & _ & El & Hq')|(s & hanzis & _ & El & Hq')].
    - assert (Hin : puRui ∈ phrases).
      { rewrite <- Ev. by apply listRequests_elem in Hq' as (_ & _ & _ & ? & _). }
      rewrite (Hphrases _ _ El Hin) in El. rewrite Hph in El. injection El as <-.
      apply list_elem_of_singleton in Hq' as ->. done.
    - exfalso. apply (Hhanzis _ _ El). rewrite <- Ev.
      by apply listRequests_elem in Hq' as (_ & _ & _ & ? & _). }
  destruct Hc as (Hb & Ht & Hp).
  assert (Hd : req_baseScore qd = 50%Q ∧
               ∃ idx, req_indexPenalty qd = (inject_Z (Z.of_nat idx) * 0.5)%Q).
  { apply default_requests_origin in Hqd as (p & _ & Hqd); [|done].
    apply pathRequests_origin in Hqd
      as [(j & phrases & _ & _ & Hqd)|(s & hanzis & _ & _ & Hqd)];
      apply listRequests_elem in Hqd as (? & _ & ? & _ & ?); [congruence|done]. }
  destruct Hd as (Hbd & idx & Hpd).
  unfold scored. cbn [score]. rewrite Hb, Ht, Hp, Hbd, Hchar, Hpd, Hlen, Ev.
  assert (0 <= inject_Z (Z.of_nat idx))%Q.
  { change 0%Q with (inject_Z 0). rewrite <- Zle_Qle. lia. }
  assert (inject_Z (Z.of_nat (default 0%nat (usage !! req_value qd)))
          <= inject_Z (Z.of_nat (default 0%nat (usage !! puRui))))%Q.
  { rewrite <- Zle_Qle. lia. }
  change (length puRui) with 2.
  change (inject_Z (Z.of_nat 1)) with 1%Q.
  change (inject_Z (Z.of_nat 2)) with 2%Q.
  change (inject_Z (Z.of_nat 0)) with 0%Q.
  lra.
Qed.

End PhraseScenario.

(** With the syllables [o] and [pei] in the dictionary the buffer of the
    scenario has three segmentations, and a character that consumes one key
    is offered beside the phrase. *)
Example crowded_segmentations :
  segmentations asciiLower crowdedValid phraseBuffer
  = [ [ {| str := js "o"; len := 1 |}; {| str := js "o"; len := 1 |};
        {| str := js "rui"; len := 3 |} ];
      [ {| str := js "o"; len := 1 |}; {| str := js "pei"; len := 3 |};
        {| str := js "o"; len := 1 |} ];
      [ {| str := js "pu"; len := 2 |}; {| str := js "rui"; len := 3 |} ] ].
Proof. vm_compute. reflexivity. Qed.

Example crowded_candidates :
  (λ c, (value c, consumedLen c, ctype c)) <$>
    candidates crowdedHanzi phrasePhrases phraseBuffer
      (segmentations asciiLower crowdedValid phraseBuffer) ∅ WordMode None
  = [ (puRui, 5, Phrase); (hanzi_o, 1, Char); (hanzi_pu3, 2, Char);
      (hanzi_pu1, 2, Char) ].
Proof. vm_compute. reflexivity. Qed.

Lemma pu_rui_phrase_first_witness :
  listed_only_under puRui (js "pu'rui") crowdedHanzi phrasePhrases ∧
  let cs := candidates crowdedHanzi phrasePhrases phraseBuffer
              (segmentations asciiLower crowdedValid phraseBuffer) ∅ WordMode None in
  ∃ c, c ∈ cs ∧ value c = puRui ∧ consumedLen c = 5 ∧
       (WordMode = WordMode →
        listed_only_under puRui (js "pu'rui") crowdedHanzi phrasePhrases →
        ∀ d, d ∈ cs → ctype d = Char → length (value d) = 1 →
             default 0%nat ((∅ : gmap jsstring nat) !! value d)
               ≤ default 0%nat ((∅ : gmap jsstring nat) !! puRui) →
             (score d < score c)%Q).
Proof.
  split.
  - split.
    + unfold phrasePhrases. by intros k phrases [<- _]%lookup_singleton_Some _.
    + unfold crowdedHanzi. intros k hanzis H Hin.
      repeat (apply lookup_insert_Some in H as [[_ <-]|[_ H]];
              [repeat (apply elem_of_cons in Hin as [Hin|Hin]; [discriminate Hin|]);
               by apply elem_of_nil in Hin|]).
      apply lookup_singleton_Some in H as [_ <-].
      repeat (apply elem_of_cons in Hin as [Hin|Hin]; [discriminate Hin|]).
      by apply elem_of_nil in Hin.
  - apply (pu_rui_phrase_first asciiLower crowdedValid crowdedHanzi phrasePhrases
             phraseBuffer ∅ WordMode).
    + apply (list_elem_of_lookup_2 _ 2). vm_compute. reflexivity.
    + vm_compute. reflexivity.
Defined.

(** ** The undo law over the candidates offered *)

Lemma rawLetter_nonempty k : rawLetter k ≠ [].
Proof.
  unfold rawLetter. destruct (chars k) as [[|c l]|]; try done.
  destruct (length c =? 0) eqn:E; [done|]. by intros ->.
Qed.

Section UndoLaw.

Variable toLowerCase : jsstring → jsstring.
Variable VALID_PINYINS : list jsstring.
Variable PINYIN_TO_HANZI : gmap jsstring (list jsstring).
Variable COMMON_PHRASES : gmap jsstring (list jsstring).

Hypothesis hanzi_nonempty : no_empty_entry PINYIN_TO_HANZI.
Hypothesis phrases_nonempty : no_empty_entry COMMON_PHRASES.

Lemma candidate_value_nonempty pinyinKeys segs usage mode focused c :
  c ∈ candidates PINYIN_TO_HANZI COMMON_PHRASES pinyinKeys segs usage mode focused →
  value c ≠ [].
Proof.
  intros (Hne & q & -> & Hq%firstPerPair_elem)%elem_of_candidates.
  cbn [scored value]. unfold requests in Hq.
  destruct focused as [f|].
  - destruct (PINYIN_TO_HANZI !! str f) as [hanzis|] eqn:El;
      [|by apply elem_of_nil in Hq].
    apply listRequests_elem in Hq as (_ & _ & _ & Hv & _).
    intros E. rewrite E in Hv. by apply (hanzi_nonempty _ _ El).
  - destruct (0 <? length segs).
    + apply list_elem_of_In, in_concat in Hq
        as (qs & (path & -> & _)%list_elem_of_In%list_elem_of_fmap & Hq%list_elem_of_In).
      destruct (proj1 (pathRequests_pairs PINYIN_TO_HANZI COMMON_PHRASES path
                         (req_value q) (req_consumedLen q)))
        as [(j & phrases & _ & El & Hv & _)|(s & hanzis & _ & El & Hv & _)].
      { by exists q. }
      * intros E. rewrite E in Hv. by apply (phrases_nonempty _ _ El).
      * intros E. rewrite E in Hv. by apply (hanzi_nonempty _ _ El).
    + apply list_elem_of_singleton in Hq as ->. cbn [req_value].
      destruct pinyinKeys as [|k keys]; [done|].
      cbn [fmap list_fmap concat]. intros E%app_eq_nil. destruct E as [E _].
      by apply rawLetter_nonempty in E.
Qed.

Lemma offered_values_nonempty cs r :
  offered toLowerCase VALID_PINYINS PINYIN_TO_HANZI COMMON_PHRASES cs r →
  Forall (λ c, value c ≠ []) cs.
Proof.
  revert r. induction cs as [|c cs IH]; intros r; [constructor|].
  intros [Hc Hcs]. constructor; [|by eapply IH].
  by eapply candidate_value_nonempty.
Qed.

(** C8. The undo law. With a dictionary that lists no empty string, from
    every state of the composition: [N] picks of candidates offered by the
    ranker, each leaving keys pending (so that none commits), followed by
    [N] presses of delete, give back [pinyinKeys], [stagedText] and
    [selectionHistory] exactly as they were before the first pick. *)
Theorem undo_restores_composition (cs : list Candidate) (r : State) :
  offered toLowerCase VALID_PINYINS PINYIN_TO_HANZI COMMON_PHRASES cs r →
  no_commit toLowerCase VALID_PINYINS PINYIN_TO_HANZI COMMON_PHRASES cs r →
  let r'' := deleteTimes toLowerCase VALID_PINYINS PINYIN_TO_HANZI COMMON_PHRASES
               (length cs)
               (selectAll toLowerCase VALID_PINYINS PINYIN_TO_HANZI COMMON_PHRASES cs r) in
  pinyinKeys r'' = pinyinKeys r ∧ stagedText r'' = stagedText r ∧
  selectionHistory r'' = selectionHistory r.
Proof.
  intros Hoff Hno.
  by apply undo_selections; [|apply (offered_values_nonempty cs r)].
Qed.

End UndoLaw.

Lemma undo_restores_composition_witness :
  let r'' := deleteTimes asciiLower undoValid undoHanzi ∅
               (length [candidate_yi; candidate_yi_again])
               (selectAll asciiLower undoValid undoHanzi ∅
                          [candidate_yi; candidate_yi_again] sixTaps) in
  pinyinKeys r'' = pinyinKeys sixTaps ∧ stagedText r'' = stagedText sixTaps ∧
  selectionHistory r'' = selectionHistory sixTaps.
Proof.
  apply (undo_restores_composition asciiLower undoValid undoHanzi ∅).
  - unfold undoHanzi. intros k entries [<- <-]%lookup_singleton_Some [=]%list_elem_of_singleton.
  - intros k entries H. by rewrite lookup_empty in H.
  - split; [apply (list_elem_of_lookup_2 _ 0); vm_compute; reflexivity|].
    split; [apply (list_elem_of_lookup_2 _ 0); vm_compute; reflexivity|exact I].
  - split; [vm_compute; discriminate|]. split; [vm_compute; discriminate|exact I].
Defined.
